(** * Fractal: a Newton-fractal viewer (Fractal/Fractal.cpp)

    A shallow embedding of [Fractal.cpp] and the properties of its kernel
    ([newton]), of its coordinate mapper ([coords_to_pix_x] and friends) and
    of the event handling of [main].

    Numbers are modelled as the program has them:
    - [float] (C++ [float]) and [double] (C++ [double]) are IEEE 754
      binary32 and binary64 values, and every operation is the correctly
      rounded (round to nearest, ties to even) one of the Standard
      Library's [SpecFloat];
    - [size_t] is a [Z] whose wrap-around at [2^64] is written out where the
      program does arithmetic on it; the row and column of a work item and
      the positions in a buffer are [nat];
    - [std::complex<float>] is a pair of [float]s.  Its sum, difference and
      product with a scalar are component-wise; its product and quotient are
      routines of the C++ library and enter as an interface ([ComplexLib]);
    - [std::pow] is a routine of the C library and enters as an interface
      ([MathLib]). *)

From Stdlib Require Import ZArith Bool List Lia.
From Stdlib Require Import Floats.SpecFloat.
From stdpp Require Import base list.

Local Open Scope Z_scope.

(** ** Floating-point numbers *)

(** Both formats share the carrier of [SpecFloat]; they differ in the
    precision and the exponent range their operations round to. *)
Definition float : Type := spec_float.
Definition double : Type := spec_float.

Definition is_nan (x : spec_float) : bool :=
  match x with S754_nan => true | _ => false end.

(** Rounding of a value to the format [(prec, emax)]: the conversion between
    the two formats.  From binary32 to binary64 it is exact. *)
Definition round_to (prec emax : Z) (x : spec_float) : spec_float :=
  match x with
  | S754_finite s m e => binary_round prec emax s m e
  | _ => x
  end.

(** binary32, the C++ [float]. *)
Module F32.
Definition prec : Z := 24.
Definition emax : Z := 128.
Definition add : float -> float -> float := SFadd prec emax.
Definition sub : float -> float -> float := SFsub prec emax.
Definition mul : float -> float -> float := SFmul prec emax.
Definition div : float -> float -> float := SFdiv prec emax.
(** The value of an integer literal or the conversion of an integer. *)
Definition of_int (z : Z) : float := binary_normalize prec emax z 0 false.
(** The narrowing conversion [double -> float]. *)
Definition of_double (x : double) : float := round_to prec emax x.
End F32.

(** binary64, the C++ [double]. *)
Module F64.
Definition prec : Z := 53.
Definition emax : Z := 1024.
Definition add : double -> double -> double := SFadd prec emax.
Definition sub : double -> double -> double := SFsub prec emax.
Definition mul : double -> double -> double := SFmul prec emax.
Definition div : double -> double -> double := SFdiv prec emax.
Definition opp : double -> double := SFopp.
Definition abs : double -> double := SFabs.
Definition ltb : double -> double -> bool := SFltb.
Definition leb : double -> double -> bool := SFleb.
Definition succ : double -> double := SFsucc prec emax.
Definition pred : double -> double := SFpred prec emax.
(** The conversion of an integer ([int], [Sint32], [size_t]) to [double]. *)
Definition of_int (z : Z) : double := binary_normalize prec emax z 0 false.
(** The widening conversion [float -> double]. *)
Definition of_float (x : float) : double := round_to prec emax x.
(** The decimal literal [n/d]: the double nearest to that rational, which
    is what the correctly rounded quotient of the two integers is. *)
Definition lit (n d : Z) : double := div (of_int n) (of_int d).
End F64.

(** ** Complex numbers: [typedef std::complex<float> complex] *)

Record complex : Type := Complex { real : float; imag : float }.

Definition cadd (x y : complex) : complex :=
  Complex (F32.add (real x) (real y)) (F32.add (imag x) (imag y)).

Definition csub (x y : complex) : complex :=
  Complex (F32.sub (real x) (real y)) (F32.sub (imag x) (imag y)).

(** [z * k] for a scalar [k : float] ([operator*(complex, float)]). *)
Definition cscale (z : complex) (k : float) : complex :=
  Complex (F32.mul (real z) k) (F32.mul (imag z) k).

(** The product and the quotient of two complex numbers are computed by the
    C++ library ([operator*], [operator/] of [std::complex<float>]); how they
    treat overflow and non-finite operands differs between libraries. *)
Class ComplexLib : Type := {
  cmul : complex -> complex -> complex;
  cdiv : complex -> complex -> complex
}.

(** The textbook formulas, one instance of the interface. *)
Definition cmul_textbook (x y : complex) : complex :=
  Complex
    (F32.sub (F32.mul (real x) (real y)) (F32.mul (imag x) (imag y)))
    (F32.add (F32.mul (real x) (imag y)) (F32.mul (imag x) (real y))).

Definition cdiv_textbook (x y : complex) : complex :=
  let n := F32.add (F32.mul (real y) (real y)) (F32.mul (imag y) (imag y)) in
  Complex
    (F32.div (F32.add (F32.mul (real x) (real y)) (F32.mul (imag x) (imag y))) n)
    (F32.div (F32.sub (F32.mul (imag x) (real y)) (F32.mul (real x) (imag y))) n).

Definition textbook_complex : ComplexLib :=
  {| cmul := cmul_textbook; cdiv := cdiv_textbook |}.

(** ** Constants *)

Definition WIDTH : Z := 1024.
Definition HEIGHT : Z := 768.
Definition ITERATION_COUNT : Z := 20.
Definition FILL_INTENSITY : Z := 255.

(** ** The kernel: [newton] *)

(** A work item [i] of a [sycl::range<2>{h, w}]: [i.1] is [i[0]], the row,
    and [i.2] is [i[1]], the column. *)
Definition item : Type := (nat * nat)%type.

Definition num_items (h w : nat) : list item :=
  r ← seq 0 h; (λ c, (r, c)) <$> seq 0 w.

(** Where the two-dimensional accessor finds item [i] in the host vector. *)
Definition linear (w : nat) (i : item) : nat := (i.1 * w + i.2)%nat.

(** [parallel_for] runs its body once for every work item.  The bodies of
    this program read and write only the cells of their own item, so the
    result is that of running them one after the other. *)
Definition parallel_for {B : Type} (items : list item) (body : item -> B -> B)
    (st : B) : B :=
  foldl (λ st i, body i st) st items.

(** Lines 61-65: one Newton update of the cell value [x]. *)
Definition newton_step {CL : ComplexLib} (sum prod_sum prod x : complex) : complex :=
  let sqr := cmul x x in
  let v := csub (cadd (csub (cmul sqr x) (cmul sum sqr)) (cmul prod_sum x)) prod in
  let d := cadd (csub (cscale sqr (F32.of_int 3))
                      (cscale (cmul sum x) (F32.of_int 2))) prod_sum in
  csub x (cdiv v d).

(** Lines 74-79: the squared distance of [x] to the root [r], computed in
    [float] and stored in a [double]. *)
Definition hyp (x r : complex) : double :=
  let d := csub x r in
  F64.of_float (F32.add (F32.mul (real d) (real d)) (F32.mul (imag d) (imag d))).

(** Lines 81-83: the channel the final iterate [x] selects. *)
Definition channel (a b c x : complex) : nat :=
  let da_hyp := hyp x a in
  let db_hyp := hyp x b in
  let dc_hyp := hyp x c in
  if F64.leb da_hyp db_hyp && F64.leb da_hyp dc_hyp then 0%nat
  else if F64.leb db_hyp da_hyp && F64.leb db_hyp dc_hyp then 1%nat
  else 2%nat.

Section Newton.
Context {CL : ComplexLib}.
Variables (a b c : complex).
Variables (w h : nat) (unit left top : double).

(** Lines 51-54: the seed of work item [i]. *)
Definition seed (i : item) : complex :=
  let y := F64.sub top (F64.mul unit (F64.of_int (Z.of_nat i.1))) in
  let x := F64.add left (F64.mul unit (F64.of_int (Z.of_nat i.2))) in
  Complex (F32.of_double x) (F32.of_double y).

(** Lines 48-56: the first submission. *)
Definition seed_pass (vec : list complex) : list complex :=
  parallel_for (num_items h w) (λ i vec, <[linear w i := seed i]> vec) vec.

(** Lines 58-67: one submission of the loop. *)
Definition iterate_pass (sum prod_sum prod : complex) (vec : list complex)
    : list complex :=
  parallel_for (num_items h w)
    (λ i vec,
       match vec !! linear w i with
       | Some x => <[linear w i := newton_step sum prod_sum prod x]> vec
       | None => vec
       end) vec.

(** Lines 69-85: the last submission. *)
Definition classify_pass (vec : list complex) (out : list Z) : list Z :=
  parallel_for (num_items h w)
    (λ i out,
       match vec !! linear w i with
       | Some x =>
           let index := (linear w i * 4)%nat in
           <[(index + channel a b c x)%nat := FILL_INTENSITY]> out
       | None => out
       end) out.

(** Lines 42-44: the coefficients, computed once per call. *)
Definition roots_sum : complex := cadd (cadd a b) c.
Definition roots_prod_sum : complex :=
  cadd (cadd (cmul a b) (cmul a c)) (cmul b c).
Definition roots_prod : complex := cmul (cmul a b) c.

(** [newton]: the work buffer and the pixel buffer it leaves.  Line 41
    clears the whole of [out]; the buffers the submissions work on are the
    first [h * w] cells of [buf] and the first [h * w * 4] bytes of [out]. *)
Definition newton (buf : list complex) (out : list Z) (iterations : nat)
    : list complex * list Z :=
  let out := replicate (length out) 0 in
  let sum := roots_sum in
  let prod_sum := roots_prod_sum in
  let prod := roots_prod in
  let vec := seed_pass buf in
  let vec := Nat.iter iterations (iterate_pass sum prod_sum prod) vec in
  (vec, classify_pass vec out).
End Newton.

(** The iterate the work buffer holds for item [i] when [newton] returns. *)
Definition final_iterate {CL : ComplexLib} (a b c : complex)
    (unit left top : double) (iterations : nat) (i : item) : complex :=
  Nat.iter iterations
    (newton_step (roots_sum a b c) (roots_prod_sum a b c) (roots_prod a b c))
    (seed unit left top i).

(** The four bytes of the pixel of a work item. *)
Definition pixel_at (out : list Z) (w : nat) (i : item) : list Z :=
  take 4 (drop (linear w i * 4) out).

(** A pixel that has [FILL_INTENSITY] in channel [k] and 0 elsewhere. *)
Definition pixel_of_channel (k : nat) : list Z :=
  <[k := FILL_INTENSITY]> [0; 0; 0; 0].

(** Exactly one of the channels 0, 1, 2 is [FILL_INTENSITY], the other two
    are 0, and so is byte 3. *)
Definition one_hot (p : list Z) : Prop :=
  p = [FILL_INTENSITY; 0; 0; 0] ∨ p = [0; FILL_INTENSITY; 0; 0]
  ∨ p = [0; 0; FILL_INTENSITY; 0].

(** The update as the specification words it: [z - p(z) / p'(z)] with
    [p(z) = z^3 - S z^2 + Q z - P] and [p'(z) = 3 z^2 - 2 S z + Q], the scalar
    factors written on the left. *)
Definition cscale_l (k : float) (z : complex) : complex :=
  Complex (F32.mul k (real z)) (F32.mul k (imag z)).

Section SpecUpdate.
Context {CL : ComplexLib}.
Variables (cS cQ cP : complex).

Definition spec_p (z : complex) : complex :=
  let z2 := cmul z z in
  let z3 := cmul z2 z in
  csub (cadd (csub z3 (cmul cS z2)) (cmul cQ z)) cP.

Definition spec_dp (z : complex) : complex :=
  let z2 := cmul z z in
  cadd (csub (cscale_l (F32.of_int 3) z2)
             (cscale_l (F32.of_int 2) (cmul cS z))) cQ.

Definition spec_update (z : complex) : complex :=
  csub z (cdiv (spec_p z) (spec_dp z)).
End SpecUpdate.

(** ** The coordinate mapper (lines 103-117) *)

Definition coords_to_pix_x (x left unit_width : double) : double :=
  F64.mul (F64.div (F64.sub x left) unit_width) (F64.of_int WIDTH).

Definition coords_to_pix_y (y top unit_height : double) : double :=
  F64.mul (F64.div (F64.sub top y) unit_height) (F64.of_int HEIGHT).

Definition pix_to_coords_x (x left unit_width : double) : double :=
  F64.add (F64.mul (F64.div x (F64.of_int WIDTH)) unit_width) left.

Definition pix_to_coords_y (y top unit_height : double) : double :=
  F64.sub top (F64.mul (F64.div y (F64.of_int HEIGHT)) unit_height).

(** Lines 119-121. *)
Definition is_in_range (x1 y1 x2 y2 : double) : bool :=
  F64.ltb (F64.abs (F64.sub x1 x2)) (F64.of_int 5)
  && F64.ltb (F64.abs (F64.sub y1 y2)) (F64.of_int 5).

(** ** The window library: events, keys and rectangles *)

Inductive button : Type :=
  | SDL_BUTTON_LEFT | SDL_BUTTON_MIDDLE | SDL_BUTTON_RIGHT
  | SDL_BUTTON_X1 | SDL_BUTTON_X2.

Inductive keycode : Type :=
  | SDLK_r | SDLK_UP | SDLK_DOWN | SDLK_other (sym : Z).

(** The events [main] tells apart; the integers are the [Sint32] fields of
    the event ([button.x], [button.y]; [motion.x], [motion.y], [motion.xrel],
    [motion.yrel]; [wheel.y]). *)
Inductive event : Type :=
  | SDL_QUIT
  | SDL_WINDOWEVENT_RESIZED
  | SDL_MOUSEBUTTONUP (btn : button) (x y : Z)
  | SDL_MOUSEBUTTONDOWN (btn : button) (x y : Z)
  | SDL_MOUSEMOTION (x y xrel yrel : Z)
  | SDL_MOUSEWHEEL (y : Z)
  | SDL_KEYDOWN (sym : keycode)
  | SDL_other.

(** The entries of [SDL_GetKeyboardState] the frame loop looks at. *)
Record keyboard : Type := Keyboard {
  SDL_SCANCODE_A : bool;
  SDL_SCANCODE_D : bool;
  SDL_SCANCODE_W : bool;
  SDL_SCANCODE_S : bool;
  SDL_SCANCODE_LSHIFT : bool;
  SDL_SCANCODE_RSHIFT : bool;
  SDL_SCANCODE_SPACE : bool
}.

Record SDL_FRect : Type := FRect {
  rect_x : float; rect_y : float; rect_w : float; rect_h : float
}.

(** What [main] writes to [std::cout] while handling events. *)
Inductive line : Type :=
  | print_roots (a b c : complex)
  | print_reset
  | print_iterations (n : Z).

(** [std::pow] of the C library. *)
Class MathLib : Type := { pow : double -> double -> double }.

(** ** The local variables of [main] (lines 133-146) *)

Record state : Type := State {
  pixels : list Z;
  buffer : list complex;
  running : bool;
  changed : bool;
  iteration_count : Z;
  a : complex;
  b : complex;
  c : complex;
  unit_width : double;
  left : double;
  top : double;
  unit_height : double;
  roots0 : SDL_FRect;
  roots1 : SDL_FRect;
  roots2 : SDL_FRect;
  point_dragging_index : Z;
  position_dragging : bool;
  cout : list line
}.

Definition set_buffers (v : list complex * list Z) (s : state) : state :=
  State v.2 v.1 (running s) (changed s) (iteration_count s) (a s) (b s) (c s)
    (unit_width s) (left s) (top s) (unit_height s) (roots0 s) (roots1 s)
    (roots2 s) (point_dragging_index s) (position_dragging s) (cout s).
Definition set_running (v : bool) (s : state) : state :=
  State (pixels s) (buffer s) v (changed s) (iteration_count s) (a s) (b s) (c s)
    (unit_width s) (left s) (top s) (unit_height s) (roots0 s) (roots1 s)
    (roots2 s) (point_dragging_index s) (position_dragging s) (cout s).
Definition set_changed (v : bool) (s : state) : state :=
  State (pixels s) (buffer s) (running s) v (iteration_count s) (a s) (b s) (c s)
    (unit_width s) (left s) (top s) (unit_height s) (roots0 s) (roots1 s)
    (roots2 s) (point_dragging_index s) (position_dragging s) (cout s).
Definition set_iteration_count (v : Z) (s : state) : state :=
  State (pixels s) (buffer s) (running s) (changed s) v (a s) (b s) (c s)
    (unit_width s) (left s) (top s) (unit_height s) (roots0 s) (roots1 s)
    (roots2 s) (point_dragging_index s) (position_dragging s) (cout s).
Definition set_a (v : complex) (s : state) : state :=
  State (pixels s) (buffer s) (running s) (changed s) (iteration_count s) v (b s)
    (c s) (unit_width s) (left s) (top s) (unit_height s) (roots0 s) (roots1 s)
    (roots2 s) (point_dragging_index s) (position_dragging s) (cout s).
Definition set_b (v : complex) (s : state) : state :=
  State (pixels s) (buffer s) (running s) (changed s) (iteration_count s) (a s) v
    (c s) (unit_width s) (left s) (top s) (unit_height s) (roots0 s) (roots1 s)
    (roots2 s) (point_dragging_index s) (position_dragging s) (cout s).
Definition set_c (v : complex) (s : state) : state :=
  State (pixels s) (buffer s) (running s) (changed s) (iteration_count s) (a s)
    (b s) v (unit_width s) (left s) (top s) (unit_height s) (roots0 s) (roots1 s)
    (roots2 s) (point_dragging_index s) (position_dragging s) (cout s).
Definition set_unit_width (v : double) (s : state) : state :=
  State (pixels s) (buffer s) (running s) (changed s) (iteration_count s) (a s)
    (b s) (c s) v (left s) (top s) (unit_height s) (roots0 s) (roots1 s)
    (roots2 s) (point_dragging_index s) (position_dragging s) (cout s).
Definition set_left (v : double) (s : state) : state :=
  State (pixels s) (buffer s) (running s) (changed s) (iteration_count s) (a s)
    (b s) (c s) (unit_width s) v (top s) (unit_height s) (roots0 s) (roots1 s)
    (roots2 s) (point_dragging_index s) (position_dragging s) (cout s).
Definition set_top (v : double) (s : state) : state :=
  State (pixels s) (buffer s) (running s) (changed s) (iteration_count s) (a s)
    (b s) (c s) (unit_width s) (left s) v (unit_height s) (roots0 s) (roots1 s)
    (roots2 s) (point_dragging_index s) (position_dragging s) (cout s).
Definition set_unit_height (v : double) (s : state) : state :=
  State (pixels s) (buffer s) (running s) (changed s) (iteration_count s) (a s)
    (b s) (c s) (unit_width s) (left s) (top s) v (roots0 s) (roots1 s)
    (roots2 s) (point_dragging_index s) (position_dragging s) (cout s).
Definition set_roots (v0 v1 v2 : SDL_FRect) (s : state) : state :=
  State (pixels s) (buffer s) (running s) (changed s) (iteration_count s) (a s)
    (b s) (c s) (unit_width s) (left s) (top s) (unit_height s) v0 v1 v2
    (point_dragging_index s) (position_dragging s) (cout s).
Definition set_point_dragging_index (v : Z) (s : state) : state :=
  State (pixels s) (buffer s) (running s) (changed s) (iteration_count s) (a s)
    (b s) (c s) (unit_width s) (left s) (top s) (unit_height s) (roots0 s)
    (roots1 s) (roots2 s) v (position_dragging s) (cout s).
Definition set_position_dragging (v : bool) (s : state) : state :=
  State (pixels s) (buffer s) (running s) (changed s) (iteration_count s) (a s)
    (b s) (c s) (unit_width s) (left s) (top s) (unit_height s) (roots0 s)
    (roots1 s) (roots2 s) (point_dragging_index s) v (cout s).
Definition print (v : line) (s : state) : state :=
  State (pixels s) (buffer s) (running s) (changed s) (iteration_count s) (a s)
    (b s) (c s) (unit_width s) (left s) (top s) (unit_height s) (roots0 s)
    (roots1 s) (roots2 s) (point_dragging_index s) (position_dragging s)
    (cout s ++ [v]).

(** ** [main]: set-up, event handling, held keys, rendering *)

(** Arithmetic on [size_t] is modulo [2^64]. *)
Definition size_t (z : Z) : Z := z mod 2 ^ 64.

Definition buffer_size : Z := WIDTH * HEIGHT * 4.

(** [static_cast<double>(HEIGHT) / static_cast<double>(WIDTH)]. *)
Definition aspect : double := F64.div (F64.of_int HEIGHT) (F64.of_int WIDTH).

Definition complex_of_ints (re im : Z) : complex :=
  Complex (F32.of_int re) (F32.of_int im).

Definition marker0 : SDL_FRect :=
  FRect (F32.of_int 0) (F32.of_int 0) (F32.of_int 10) (F32.of_int 10).

(** Lines 133-146: the variables as they are initialised. *)
Definition init : state :=
  {| pixels := replicate (Z.to_nat buffer_size) 0;
     buffer := replicate (Z.to_nat buffer_size) (complex_of_ints 0 0);
     running := true;
     changed := true;
     iteration_count := ITERATION_COUNT;
     a := complex_of_ints (-2) 1;
     b := complex_of_ints 2 2;
     c := complex_of_ints (-1) (-2);
     unit_width := F64.of_int 10;
     left := F64.of_int (-5);
     top := F64.of_int 4;
     unit_height := F64.mul (F64.of_int 10) aspect;
     roots0 := marker0;
     roots1 := marker0;
     roots2 := marker0;
     point_dragging_index := 0;
     position_dragging := false;
     cout := [] |}.

(** [roots[i].x + 5.0] and [roots[i].y + 5.0]: the centre of a marker. *)
Definition center_x (r : SDL_FRect) : double :=
  F64.add (F64.of_float (rect_x r)) (F64.of_int 5).
Definition center_y (r : SDL_FRect) : double :=
  F64.add (F64.of_float (rect_y r)) (F64.of_int 5).

(** Lines 198, 202, 206: the test of one marker against the pointer. *)
Definition hit (r : SDL_FRect) (x y : Z) : bool :=
  is_in_range (center_x r) (center_y r) (F64.of_int x) (F64.of_int y).

(** Lines 233-234: the pan of a pointer motion. *)
Definition pan_left (left unit_width : double) (xrel : Z) : double :=
  F64.sub left (F64.div (F64.mul (F64.of_int xrel) unit_width) (F64.of_int WIDTH)).

Definition pan_top (top unit_height : double) (yrel : Z) : double :=
  F64.add top (F64.div (F64.mul (F64.of_int yrel) unit_height) (F64.of_int HEIGHT)).

Definition pan (xrel yrel : Z) (s : state) : state :=
  let s := set_left (pan_left (left s) (unit_width s) xrel) s in
  set_top (pan_top (top s) (unit_height s) yrel) s.

Section Main.
Context {CL : ComplexLib} {ML : MathLib}.

(** Lines 180-269: the [switch] on the type of one polled event. *)
Definition handle_event (s : state) (e : event) : state :=
  match e with
  | SDL_QUIT => set_running false s
  | SDL_WINDOWEVENT_RESIZED => set_changed true s
  | SDL_MOUSEBUTTONUP btn _ _ =>
      match btn with
      | SDL_BUTTON_LEFT =>
          print (print_roots (a s) (b s) (c s)) (set_point_dragging_index 0 s)
      | SDL_BUTTON_RIGHT => set_position_dragging false s
      | _ => s
      end
  | SDL_MOUSEBUTTONDOWN btn x y =>
      match btn with
      | SDL_BUTTON_LEFT =>
          if hit (roots0 s) x y then
            set_point_dragging_index 1 (set_changed true s)
          else if hit (roots1 s) x y then
            set_point_dragging_index 2 (set_changed true s)
          else if hit (roots2 s) x y then
            set_point_dragging_index 3 (set_changed true s)
          else s
      | SDL_BUTTON_RIGHT => set_position_dragging true s
      | _ => s
      end
  | SDL_MOUSEMOTION mx my xrel yrel =>
      if negb (point_dragging_index s =? 0) then
        let x := pix_to_coords_x (F64.of_int mx) (left s) (unit_width s) in
        let y := pix_to_coords_y (F64.of_int my) (top s) (unit_height s) in
        let v := Complex (F32.of_double x) (F32.of_double y) in
        let s := set_changed true s in
        match point_dragging_index s with
        | 1 => set_a v s
        | 2 => set_b v s
        | 3 => set_c v s
        | _ => s
        end
      else if position_dragging s then
        set_changed true (pan xrel yrel s)
      else s
  | SDL_MOUSEWHEEL y =>
      if y =? 0 then s
      else
        let s := set_changed true s in
        let s := set_top (F64.sub (top s)
                   (F64.mul (F64.mul (unit_height s) (F64.of_int y)) (F64.lit 25 1000))) s in
        let s := set_left (F64.add (left s)
                   (F64.mul (F64.mul (unit_width s) (F64.of_int y)) (F64.lit 25 1000))) s in
        let s := set_unit_width (F64.mul (unit_width s)
                   (pow (F64.lit 95 100) (F64.of_int y))) s in
        set_unit_height (F64.mul (unit_width s) aspect) s
  | SDL_KEYDOWN sym =>
      match sym with
      | SDLK_r =>
          let s := set_c (complex_of_ints (-1) (-2))
                     (set_b (complex_of_ints 2 2)
                        (set_a (complex_of_ints (-2) 1) s)) in
          let s := set_top (F64.of_int 4)
                     (set_left (F64.of_int (-5))
                        (set_unit_width (F64.of_int 10) s)) in
          let s := set_unit_height (F64.mul (unit_width s) aspect) s in
          let s := set_point_dragging_index 0 s in
          let s := set_position_dragging false s in
          let s := set_iteration_count 20 s in
          let s := set_changed true s in
          print print_reset s
      | SDLK_UP =>
          let s := set_iteration_count (size_t (iteration_count s + 1)) s in
          let s := set_changed true s in
          print (print_iterations (iteration_count s)) s
      | SDLK_DOWN =>
          let s := if iteration_count s =? 0 then set_iteration_count 1 s else s in
          let s := set_iteration_count (size_t (iteration_count s - 1)) s in
          let s := set_changed true s in
          print (print_iterations (iteration_count s)) s
      | SDLK_other _ => s
      end
  | SDL_other => s
  end.

(** Lines 271-304: the keys held down when the frame is drawn. *)
Definition handle_keys (s : state) (k : keyboard) : state :=
  let s :=
    if SDL_SCANCODE_A k && SDL_SCANCODE_D k then s
    else if SDL_SCANCODE_A k then
      set_left (F64.sub (left s) (F64.mul (unit_width s) (F64.lit 1 100)))
        (set_changed true s)
    else if SDL_SCANCODE_D k then
      set_left (F64.add (left s) (F64.mul (unit_width s) (F64.lit 1 100)))
        (set_changed true s)
    else s in
  let s :=
    if SDL_SCANCODE_W k && SDL_SCANCODE_S k then s
    else if SDL_SCANCODE_S k then
      set_top (F64.sub (top s) (F64.mul (unit_width s) (F64.lit 1 100)))
        (set_changed true s)
    else if SDL_SCANCODE_W k then
      set_top (F64.add (top s) (F64.mul (unit_width s) (F64.lit 1 100)))
        (set_changed true s)
    else s in
  if (SDL_SCANCODE_LSHIFT k || SDL_SCANCODE_RSHIFT k) && SDL_SCANCODE_SPACE k then s
  else if SDL_SCANCODE_LSHIFT k || SDL_SCANCODE_RSHIFT k then
    let s := set_changed true s in
    let s := set_top (F64.sub (top s)
               (F64.mul (unit_height s) (F64.lit 25 1000))) s in
    let s := set_left (F64.add (left s)
               (F64.mul (unit_width s) (F64.lit 25 1000))) s in
    let s := set_unit_width (F64.mul (unit_width s) (F64.lit 95 100)) s in
    set_unit_height (F64.mul (unit_width s) aspect) s
  else if SDL_SCANCODE_SPACE k then
    let s := set_changed true s in
    let s := set_top (F64.add (top s)
               (F64.mul (unit_height s) (F64.lit 25 1000))) s in
    let s := set_left (F64.sub (left s)
               (F64.mul (unit_width s) (F64.lit 25 1000))) s in
    let s := set_unit_width (F64.mul (unit_width s) (F64.lit 105 100)) s in
    set_unit_height (F64.mul (unit_width s) aspect) s
  else s.

(** Lines 311-316: the rectangle drawn for the root [r]. *)
Definition marker (r : complex) (s : state) : SDL_FRect :=
  FRect
    (F32.of_double (F64.sub
       (coords_to_pix_x (F64.of_float (real r)) (left s) (unit_width s))
       (F64.of_int 5)))
    (F32.of_double (F64.sub
       (coords_to_pix_y (F64.of_float (imag r)) (top s) (unit_height s))
       (F64.of_int 5)))
    (rect_w marker0) (rect_h marker0).

(** Lines 305-319: the body of [if (changed)]. *)
Definition render (s : state) : state :=
  let s :=
    set_buffers
      (newton (a s) (b s) (c s) (Z.to_nat WIDTH) (Z.to_nat HEIGHT)
         (F64.div (unit_width s) (F64.of_int WIDTH)) (left s) (top s)
         (buffer s) (pixels s) (Z.to_nat (iteration_count s))) s in
  let s := set_roots (marker (a s) s) (marker (b s) s) (marker (c s) s) s in
  set_changed false s.

(** Lines 179-328: one turn of the outer loop, given the events pending
    and the keyboard state when it runs. *)
Definition frame (s : state) (f : list event * keyboard) : state :=
  let s := foldl handle_event s f.1 in
  let s := handle_keys s f.2 in
  if changed s then render s else s.

(** Lines 178-328: the outer loop over a script of frames; [None] when the
    script ends while [running] still holds. *)
Fixpoint loop (s : state) (frames : list (list event * keyboard)) : option state :=
  if running s then
    match frames with
    | [] => None
    | f :: frames => loop (frame s f) frames
    end
  else Some s.
End Main.

(** What the window library answers during the set-up. *)
Record sdl : Type := Sdl {
  SDL_Init : Z;
  SDL_CreateWindow : bool;
  SDL_CreateRenderer : bool;
  SDL_CreateTexture : bool
}.

Inductive cleanup : Type :=
  | SDL_DestroyTexture | SDL_DestroyRenderer | SDL_DestroyWindow | SDL_Quit.

(** Lines 123-336: the exit code of [main] and the clean-up calls it makes;
    [None] when the script of frames ends before the loop does.  The
    creation functions answer [true] when they return a non-null handle. *)
Definition main {CL : ComplexLib} {ML : MathLib} (env : sdl)
    (frames : list (list event * keyboard)) : option (Z * list cleanup) :=
  if negb (SDL_Init env =? 0) then Some (1, [])
  else if negb (SDL_CreateWindow env) then Some (0, [SDL_Quit])
  else if negb (SDL_CreateRenderer env) then Some (0, [SDL_DestroyWindow; SDL_Quit])
  else if negb (SDL_CreateTexture env) then
    Some (0, [SDL_DestroyRenderer; SDL_DestroyWindow; SDL_Quit])
  else
    match loop init frames with
    | Some _ =>
        Some (0, [SDL_DestroyTexture; SDL_DestroyRenderer; SDL_DestroyWindow; SDL_Quit])
    | None => None
    end.

(** The states the variables of [main] go through: after the set-up, after
    every event, after the held keys of a frame, and after a rendering. *)
Inductive reachable {CL : ComplexLib} {ML : MathLib} : state -> Prop :=
  | reachable_init : reachable init
  | reachable_event s e : reachable s -> reachable (handle_event s e)
  | reachable_keys s k : reachable s -> reachable (handle_keys s k)
  | reachable_render s : reachable s -> changed s = true -> reachable (render s).

(** The two pointer modes of the interaction. *)
Definition DraggingRoot (s : state) : Prop := point_dragging_index s <> 0.
Definition PanningViewport (s : state) : Prop := position_dragging s = true.

(** Stand-ins for the library routines, to run the model on examples: the
    textbook complex product and quotient, and a power by repeated
    multiplication for an exponent that is an integer. *)
Definition trunc (y : double) : Z :=
  match y with
  | S754_finite s m e =>
      let n := if 0 <=? e then Z.pos m * 2 ^ e else Z.pos m / 2 ^ (- e) in
      if s then - n else n
  | _ => 0
  end.

Definition repeated_pow (x y : double) : double :=
  let n := trunc y in
  let p := Nat.iter (Z.to_nat (Z.abs n)) (F64.mul x) (F64.of_int 1) in
  if n <? 0 then F64.div (F64.of_int 1) p else p.

Definition repeated_math : MathLib := {| pow := repeated_pow |}.

(** ** The frame counter of [main] (lines 138-139 and 321-327)

    [frame_count] is a [size_t]; [last_time] and [this_time] are the
    [uint32_t] values of [SDL_GetTicks], milliseconds modulo [2^32]. *)

Definition uint32_t (z : Z) : Z := z mod 2 ^ 32.

Record fps : Type := Fps { frame_count : Z; last_time : Z }.

(** Lines 321-327, given what [SDL_GetTicks] returns: the counter after the
    frame and the number printed after [FPS: ], if a line is printed. *)
Definition count_frame (st : fps) (this_time : Z) : fps * option Z :=
  let frame_count := size_t (frame_count st + 1) in
  if 5000 <=? uint32_t (this_time - last_time st) then
    (Fps 0 this_time, Some (frame_count / 5))
  else (Fps frame_count (last_time st), None).

(** ** Vocabulary of the properties *)

(** [y] is within one unit in the last place of [x]: it is [x] itself, equal
    to it as a number, or one of the two doubles next to it. *)
Definition within_1ulp (x y : double) : Prop :=
  y = x ∨ SFeqb y x = true ∨ SFeqb y (F64.succ x) = true
  ∨ SFeqb y (F64.pred x) = true.

Definition no_keys : keyboard := Keyboard false false false false false false false.

(** The first frame (no event pending, no key held), then the left button
    pressed on the marker of root [a] and the right button pressed, with no
    release in between. *)
Definition left_then_right_down {CL : ComplexLib} {ML : MathLib} : state :=
  let s := frame init ([], no_keys) in
  let s := handle_event s (SDL_MOUSEBUTTONDOWN SDL_BUTTON_LEFT 307 307) in
  handle_event s (SDL_MOUSEBUTTONDOWN SDL_BUTTON_RIGHT 307 307).

(** Equality of two floating-point data, as a test. *)
Definition sf_eqb (x y : spec_float) : bool :=
  match x, y with
  | S754_zero s, S754_zero s' => Bool.eqb s s'
  | S754_infinity s, S754_infinity s' => Bool.eqb s s'
  | S754_nan, S754_nan => true
  | S754_finite s m e, S754_finite s' m' e' =>
      Bool.eqb s s' && Pos.eqb m m' && Z.eqb e e'
  | _, _ => false
  end.



(** The keyboard with only the left Shift key held. *)
Definition shift_held : keyboard := Keyboard false false false false true false false.

(** The start-up state after two frames' worth of Shift held (two keyboard
    zoom-in steps). *)
Definition zoomed_twice : state := handle_keys (handle_keys init shift_held) shift_held.

Definition is_infinite (x : spec_float) : bool :=
  match x with S754_infinity _ => true | _ => false end.

(** Zero or a finite non-zero number. *)
Definition is_finite (x : spec_float) : bool :=
  match x with S754_zero _ | S754_finite _ _ _ => true | _ => false end.

Definition finite_complex (z : complex) : bool :=
  is_finite (real z) && is_finite (imag z).

(** [x] is a number (not a NaN) of sign [s]. *)
Definition signed_number (s : bool) (x : spec_float) : Prop :=
  match x with
  | S754_zero s' | S754_infinity s' | S754_finite s' _ _ => s' = s
  | S754_nan => False
  end.

(** What a picture is computed from: the roots, the viewport and the
    iteration count. *)
Definition view (s : state)
    : complex * complex * complex * double * double * double * double * Z :=
  (a s, b s, c s, unit_width s, left s, top s, unit_height s, iteration_count s).

(** The picture of the current view: what [newton] computes from it, on
    buffers of the size [main] allocates. *)
Definition picture {CL : ComplexLib} (s : state) : list Z :=
  (newton (a s) (b s) (c s) (Z.to_nat WIDTH) (Z.to_nat HEIGHT)
     (F64.div (unit_width s) (F64.of_int WIDTH)) (left s) (top s)
     (replicate (Z.to_nat buffer_size) (complex_of_ints 0 0))
     (replicate (Z.to_nat buffer_size) 0) (Z.to_nat (iteration_count s))).2.

(** The pixel buffer and the three markers are those of the current view. *)
Definition up_to_date {CL : ComplexLib} (s : state) : Prop :=
  pixels s = picture s
  ∧ roots0 s = marker (a s) s ∧ roots1 s = marker (b s) s
  ∧ roots2 s = marker (c s) s.

Definition is_quit (e : event) : bool :=
  match e with SDL_QUIT => true | _ => false end.

(** The two vectors keep the size they are allocated with. *)
Definition allocated (s : state) : Prop :=
  length (pixels s) = Z.to_nat buffer_size
  ∧ length (buffer s) = Z.to_nat buffer_size.

(** A frame that polls an [SDL_QUIT]. *)
Definition has_quit (f : list event * keyboard) : bool := existsb is_quit f.1.

(** A finite number other than zero. *)
Definition is_nonzero_finite (x : spec_float) : bool :=
  match x with S754_finite _ _ _ => true | _ => false end.

(** The value of a finite number in units of [2^k], when it is a whole
    number of them. *)
Definition scaled (k : Z) (x : spec_float) : option Z :=
  match x with
  | S754_zero _ => Some 0
  | S754_finite s m e =>
      if k <=? e then Some (cond_Zopp s (Z.pos m) * 2 ^ (e - k)) else None
  | _ => None
  end.

(** [r] is the difference of [x] and [y], with no rounding. *)
Definition exact_difference (x y r : spec_float) : Prop :=
  ∃ k zx zy, scaled k x = Some zx ∧ scaled k y = Some zy
             ∧ scaled k r = Some (zx - zy).

(** [r] is the sum of [x] and [y], with no rounding. *)
Definition exact_sum (x y r : spec_float) : Prop :=
  ∃ k zx zy, scaled k x = Some zx ∧ scaled k y = Some zy
             ∧ scaled k r = Some (zx + zy).



(** * Properties *)

(** ** Work items and the cells they own *)

Lemma linear_num_items (h w : nat) :
  linear w <$> num_items h w = seq 0 (h * w).
Proof.
  unfold num_items. induction h as [|h IH].
  - reflexivity.
  - rewrite seq_S, bind_app, fmap_app, IH. cbn [mbind list_bind].
    rewrite app_nil_r, <- list_fmap_compose.
    replace (S h * w)%nat with (h * w + w)%nat by lia.
    rewrite seq_app. f_equal. cbn [Nat.add].
    replace (seq (h * w) w) with (seq (h * w + 0) w) by (f_equal; lia).
    rewrite <- fmap_add_seq.
    apply list_fmap_ext. intros _ col _. reflexivity.
Qed.

Lemma elem_of_num_items (h w : nat) (i : item) :
  i ∈ num_items h w ↔ (i.1 < h)%nat ∧ (i.2 < w)%nat.
Proof.
  unfold num_items. rewrite list_elem_of_bind. split.
  - intros (r & Hi & Hr). apply list_elem_of_fmap in Hi as (col & -> & Hc).
    apply elem_of_seq in Hr, Hc. cbn. lia.
  - intros [Hr Hc]. exists i.1. split.
    + apply list_elem_of_fmap. exists i.2. split; [by destruct i|].
      apply elem_of_seq. lia.
    + apply elem_of_seq. lia.
Qed.

Lemma NoDup_linear_num_items (h w : nat) : NoDup (linear w <$> num_items h w).
Proof. rewrite linear_num_items. apply NoDup_seq. Qed.

Lemma linear_lt (h w : nat) (i : item) :
  (i.1 < h)%nat → (i.2 < w)%nat → (linear w i < h * w)%nat.
Proof. unfold linear. nia. Qed.

(** A [parallel_for] whose body touches, in a buffer of blocks of [blk]
    cells, only the block of its own item, and there maps each cell by [F]:
    every cell of the buffer ends up mapped once by the item that owns it. *)
Section Cells.
Context {A : Type} (w blk : nat).
Variable g : item → list A → list A.
Variable F : item → nat → option A → option A.
Hypothesis g_other :
  ∀ i st k, (k `div` blk)%nat ≠ linear w i → g i st !! k = st !! k.
Hypothesis g_own :
  ∀ i st k, (k `div` blk)%nat = linear w i → g i st !! k = F i k (st !! k).

Lemma parallel_for_other (its : list item) (st : list A) (k : nat) :
  (k `div` blk)%nat ∉ linear w <$> its →
  parallel_for its g st !! k = st !! k.
Proof using g_other.
  unfold parallel_for. revert st.
  induction its as [|j its IH]; intros st Hk; [reflexivity|].
  cbn [foldl]. rewrite fmap_cons, not_elem_of_cons in Hk.
  destruct Hk as [Hj Hk]. rewrite IH by exact Hk. by apply g_other.
Qed.

Lemma parallel_for_own (its : list item) (st : list A) (i : item) (k : nat) :
  NoDup (linear w <$> its) → i ∈ its → (k `div` blk)%nat = linear w i →
  parallel_for its g st !! k = F i k (st !! k).
Proof using g_other g_own.
  revert st. induction its as [|j its IH]; intros st Hnd Hi Hk.
  - by apply elem_of_nil in Hi.
  - rewrite fmap_cons in Hnd. apply NoDup_cons in Hnd as [Hj Hnd].
    apply elem_of_cons in Hi as [->|Hi].
    + change (parallel_for (j :: its) g st) with (parallel_for its g (g j st)).
      rewrite parallel_for_other by (by rewrite Hk). by apply g_own.
    + change (parallel_for (j :: its) g st) with (parallel_for its g (g j st)).
      rewrite IH by done. f_equal. apply g_other. rewrite Hk.
      intros Heq. apply Hj. rewrite <- Heq. by apply list_elem_of_fmap_2.
Qed.
End Cells.

(** ** The three submissions of [newton], cell by cell *)

Section NewtonCells.
Context {CL : ComplexLib}.
Variables (a b c : complex).
Variables (w h : nat) (unit left top : double).

Lemma seed_pass_lookup (vec : list complex) (i : item) :
  i ∈ num_items h w →
  seed_pass w h unit left top vec !! linear w i
  = (λ _, seed unit left top i) <$> vec !! linear w i.
Proof.
  intros Hi. unfold seed_pass.
  set (F := λ (i : item) (_ : nat) (o : option complex),
              (λ _, seed unit left top i) <$> o).
  refine (parallel_for_own w 1 _ F _ _ _ vec i _
            (NoDup_linear_num_items h w) Hi (Nat.div_1_r _)).
  - intros j st k Hk. rewrite Nat.div_1_r in Hk.
    by apply list_lookup_insert_ne.
  - intros j st k Hk. rewrite Nat.div_1_r in Hk. subst k. unfold F.
    destruct (st !! linear w j) as [x|] eqn:Hx.
    + apply list_lookup_insert_eq. by eapply lookup_lt_Some.
    + cbn. rewrite list_insert_ge; [done|]. by apply lookup_ge_None.
Qed.

Lemma iterate_pass_lookup (sum prod_sum prod : complex) (vec : list complex)
    (i : item) :
  i ∈ num_items h w →
  iterate_pass w h sum prod_sum prod vec !! linear w i
  = newton_step sum prod_sum prod <$> vec !! linear w i.
Proof.
  intros Hi. unfold iterate_pass.
  set (F := λ (_ : item) (_ : nat) (o : option complex),
              newton_step sum prod_sum prod <$> o).
  refine (parallel_for_own w 1 _ F _ _ _ vec i _
            (NoDup_linear_num_items h w) Hi (Nat.div_1_r _)).
  - intros j st k Hk. rewrite Nat.div_1_r in Hk.
    destruct (st !! linear w j); [|done]. by apply list_lookup_insert_ne.
  - intros j st k Hk. rewrite Nat.div_1_r in Hk. subst k. unfold F.
    destruct (st !! linear w j) as [x|] eqn:Hx; [|by rewrite Hx].
    apply list_lookup_insert_eq. by eapply lookup_lt_Some.
Qed.

Lemma iterate_loop_lookup (sum prod_sum prod : complex) (n : nat)
    (vec : list complex) (i : item) :
  i ∈ num_items h w →
  Nat.iter n (iterate_pass w h sum prod_sum prod) vec !! linear w i
  = Nat.iter n (newton_step sum prod_sum prod) <$> vec !! linear w i.
Proof.
  intros Hi. induction n as [|n IH].
  - cbn. by rewrite option_fmap_id.
  - rewrite !Nat.iter_succ, iterate_pass_lookup by done. rewrite IH.
    by rewrite <- option_fmap_compose.
Qed.

Lemma channel_lt (x : complex) : (channel a b c x < 3)%nat.
Proof. unfold channel. repeat case_match; lia. Qed.

Lemma block_of_cell (n j : nat) : (j < 4)%nat → ((n * 4 + j) `div` 4)%nat = n.
Proof.
  intros Hj. rewrite Nat.add_comm, Nat.div_add by lia.
  by rewrite Nat.div_small.
Qed.

Lemma classify_pass_lookup (vec : list complex) (out : list Z) (i : item)
    (x : complex) (j : nat) :
  i ∈ num_items h w → vec !! linear w i = Some x → (j < 4)%nat →
  classify_pass a b c w h vec out !! (linear w i * 4 + j)%nat
  = if decide (j = channel a b c x)
    then (λ _, FILL_INTENSITY) <$> out !! (linear w i * 4 + j)%nat
    else out !! (linear w i * 4 + j)%nat.
Proof.
  intros Hi Hx Hj. unfold classify_pass.
  set (F := λ (i : item) (k : nat) (o : option Z),
              match vec !! linear w i with
              | Some x =>
                  if decide (k = linear w i * 4 + channel a b c x)%nat
                  then (λ _, FILL_INTENSITY) <$> o else o
              | None => o
              end).
  assert (Hother : ∀ (i : item) (st : list Z) (k : nat),
    (k `div` 4)%nat ≠ linear w i →
    match vec !! linear w i with
    | Some x => <[(linear w i * 4 + channel a b c x)%nat := FILL_INTENSITY]> st
    | None => st
    end !! k = st !! k).
  { intros j' st k Hk. destruct (vec !! linear w j') as [y|]; [|done].
    apply list_lookup_insert_ne. intros <-. apply Hk.
    pose proof (channel_lt y). apply block_of_cell. lia. }
  assert (Hown : ∀ (i : item) (st : list Z) (k : nat),
    (k `div` 4)%nat = linear w i →
    match vec !! linear w i with
    | Some x => <[(linear w i * 4 + channel a b c x)%nat := FILL_INTENSITY]> st
    | None => st
    end !! k = F i k (st !! k)).
  { intros j' st k Hk. unfold F.
    destruct (vec !! linear w j') as [y|]; [|done].
    case_decide as Hd.
    - subst k. destruct (st !! _) as [z|] eqn:Hz.
      + apply list_lookup_insert_eq. by eapply lookup_lt_Some.
      + cbn. rewrite list_insert_ge; [done|]. by apply lookup_ge_None.
    - by apply list_lookup_insert_ne. }
  rewrite (parallel_for_own w 4 _ F Hother Hown (num_items h w) out i
             (linear w i * 4 + j)%nat (NoDup_linear_num_items h w) Hi
             (block_of_cell _ _ Hj)).
  unfold F. rewrite Hx. repeat case_decide; try done; lia.
Qed.
End NewtonCells.

(** ** Floating-point facts the kernel relies on *)

Lemma SFmul_comm (prec emax : Z) (x y : spec_float) :
  SFmul prec emax x y = SFmul prec emax y x.
Proof.
  destruct x as [sx|sx| |sx mx ex], y as [sy|sy| |sy my ey]; cbn;
    rewrite ?(xorb_comm sx sy); try reflexivity.
  by rewrite Pos.mul_comm, Z.add_comm.
Qed.

Lemma cscale_comm (k : float) (z : complex) : cscale z k = cscale_l k z.
Proof. unfold cscale, cscale_l, F32.mul. by rewrite !(SFmul_comm _ _ k). Qed.

Lemma leb_nan_l (d : double) : F64.leb S754_nan d = false.
Proof. reflexivity. Qed.

Lemma leb_nan_r (d : double) : F64.leb d S754_nan = false.
Proof. by destruct d. Qed.

(** A NaN component of [x] makes every squared distance NaN. *)
Lemma hyp_nan (x r : complex) :
  is_nan (real x) || is_nan (imag x) = true → hyp x r = S754_nan.
Proof.
  destruct x as [xr xi]. cbn [real imag]. intros Hx.
  unfold hyp, csub. cbn [real imag].
  apply orb_true_iff in Hx as [Hx|Hx].
  - destruct xr; try discriminate Hx. reflexivity.
  - destruct xi; try discriminate Hx. cbn.
    by destruct (F32.mul _ _).
Qed.

Lemma channel_nan (a b c x : complex) :
  is_nan (real x) || is_nan (imag x) = true → channel a b c x = 2%nat.
Proof. intros Hx. unfold channel. by rewrite !hyp_nan. Qed.

(** ** The kernel as a whole *)

Lemma take_drop_4 (l : list Z) (n : nat) (v0 v1 v2 v3 : Z) :
  l !! (n + 0)%nat = Some v0 → l !! (n + 1)%nat = Some v1 →
  l !! (n + 2)%nat = Some v2 → l !! (n + 3)%nat = Some v3 →
  take 4 (drop n l) = [v0; v1; v2; v3].
Proof.
  intros H0 H1 H2 H3. apply list_eq. intros j.
  destruct (decide (j < 4)%nat) as [Hj|Hj].
  - rewrite lookup_take_lt, lookup_drop by done.
    destruct j as [|[|[|[|j]]]]; try done; lia.
  - rewrite lookup_take_ge by lia. symmetry. apply lookup_ge_None. cbn. lia.
Qed.

Section NewtonFacts.
Context {CL : ComplexLib}.
Variables (a b c : complex).
Variables (w h : nat) (unit left top : double).
Variables (buf : list complex) (out : list Z) (iterations : nat).

Let result := newton a b c w h unit left top buf out iterations.

Lemma newton_work_buffer (i : item) :
  (i.1 < h)%nat → (i.2 < w)%nat → (h * w ≤ length buf)%nat →
  result.1 !! linear w i = Some (final_iterate a b c unit left top iterations i).
Proof.
  intros Hr Hc Hlen. unfold result, newton. cbn [fst].
  assert (Hi : i ∈ num_items h w) by (by apply elem_of_num_items).
  rewrite iterate_loop_lookup, seed_pass_lookup by done.
  pose proof (linear_lt h w i Hr Hc) as Hlt.
  destruct (lookup_lt_is_Some_2 buf (linear w i)) as [x ->]; [lia|done].
Qed.

Lemma newton_pixel (i : item) :
  (i.1 < h)%nat → (i.2 < w)%nat →
  (h * w ≤ length buf)%nat → (h * w * 4 ≤ length out)%nat →
  pixel_at result.2 w i
  = pixel_of_channel
    (channel a b c (final_iterate a b c unit left top iterations i)).
Proof.
  intros Hr Hc Hbuf Hout.
  pose proof (newton_work_buffer i Hr Hc Hbuf) as Hx.
  unfold result, newton in *. cbn [fst snd] in *.
  assert (Hi : i ∈ num_items h w) by (by apply elem_of_num_items).
  pose proof (linear_lt h w i Hr Hc) as Hlt.
  pose proof (channel_lt a b c (final_iterate a b c unit left top iterations i)) as Hch.
  assert (Hz : ∀ j, (j < 4)%nat →
    replicate (length out) 0 !! (linear w i * 4 + j)%nat = Some 0).
  { intros j Hj. apply lookup_replicate_2. lia. }
  assert (Hb : ∀ j, (j < 4)%nat →
    classify_pass a b c w h
      (Nat.iter iterations
         (iterate_pass w h (roots_sum a b c) (roots_prod_sum a b c)
            (roots_prod a b c))
         (seed_pass w h unit left top buf))
      (replicate (length out) 0) !! (linear w i * 4 + j)%nat
    = Some (if decide (j = channel a b c (final_iterate a b c unit left top iterations i))
            then FILL_INTENSITY else 0)).
  { intros j Hj.
    rewrite (classify_pass_lookup _ _ _ _ _ _ _ _ _ _ Hi Hx Hj), Hz by done.
    by case_decide. }
  unfold pixel_at.
  rewrite (take_drop_4 _ _ _ _ _ _ (Hb 0%nat ltac:(lia)) (Hb 1%nat ltac:(lia))
             (Hb 2%nat ltac:(lia)) (Hb 3%nat ltac:(lia))).
  destruct (channel a b c (final_iterate a b c unit left top iterations i)) as [|[|[|k]]]; [done..|lia].
Qed.
End NewtonFacts.

Lemma newton_step_spec {CL : ComplexLib} (cS cQ cP z : complex) :
  newton_step cS cQ cP z = spec_update cS cQ cP z.
Proof.
  unfold newton_step, spec_update, spec_p, spec_dp.
  by rewrite !cscale_comm.
Qed.

Lemma iter_ext {A : Type} (f g : A → A) (n : nat) (x : A) :
  (∀ y, f y = g y) → Nat.iter n f x = Nat.iter n g x.
Proof.
  intros Hfg. induction n as [|n IH]; [done|].
  by rewrite !Nat.iter_succ, IH, Hfg.
Qed.

(** C1.  Whatever the roots, the iteration count, the viewport and the
    dimensions are, and whatever the iterates turn out to be (finite or not),
    [newton] leaves in every pixel of the output buffer exactly one of the
    channels 0, 1, 2 at [FILL_INTENSITY] (255), the other two at 0, and byte 3
    at 0.  The two inequalities on the lengths say that the buffers handed to
    [newton] hold the [h * w] cells and [h * w * 4] bytes it works on. *)
Theorem C1_every_pixel_one_hot {CL : ComplexLib} (a b c : complex) (w h : nat)
    (unit left top : double) (buf : list complex) (out : list Z)
    (iterations : nat) (i : item) :
  (i.1 < h)%nat → (i.2 < w)%nat →
  (h * w ≤ length buf)%nat → (h * w * 4 ≤ length out)%nat →
  one_hot (pixel_at (newton a b c w h unit left top buf out iterations).2 w i).
Proof.
  intros Hr Hc Hbuf Hout. rewrite newton_pixel by done.
  pose proof (channel_lt a b c (final_iterate a b c unit left top iterations i)).
  unfold one_hot.
  destruct (channel _ _ _ _) as [|[|[|k]]]; cbn; auto. lia.
Qed.

Lemma C1_every_pixel_one_hot_witness :
  one_hot (pixel_at
    (newton (CL := textbook_complex)
       (complex_of_ints (-2) 1) (complex_of_ints 2 2) (complex_of_ints (-1) (-2))
       2 1 (F64.of_int 1) (F64.of_int (-2)) (F64.of_int 2)
       (replicate 2 (complex_of_ints 0 0)) (replicate 8 9) 5%nat).2 2 (0, 1)%nat).
Proof.
  apply (C1_every_pixel_one_hot (CL := textbook_complex)); cbn; lia.
Defined.

(** C4.  For every pixel and every iteration count [N], when [newton]
    returns the work buffer holds at that pixel the seed updated exactly [N]
    times by [z <- z - p(z) / p'(z)], with [p(z) = z^3 - S z^2 + Q z - P],
    [p'(z) = 3 z^2 - 2 S z + Q] and [S = a + b + c], [Q = ab + ac + bc],
    [P = abc] computed once, before the passes.  The update has no case
    distinction on [p'(z)]: it is the same expression for every [z], and all
    its operations are those of [std::complex<float>], single precision. *)
Theorem C4_seed_updated_N_times {CL : ComplexLib} (a b c : complex) (w h : nat)
    (unit left top : double) (buf : list complex) (out : list Z) (N : nat)
    (i : item) :
  (i.1 < h)%nat → (i.2 < w)%nat → (h * w ≤ length buf)%nat →
  let cS := cadd (cadd a b) c in
  let cQ := cadd (cadd (cmul a b) (cmul a c)) (cmul b c) in
  let cP := cmul (cmul a b) c in
  (newton a b c w h unit left top buf out N).1 !! linear w i
  = Some (Nat.iter N (spec_update cS cQ cP) (seed unit left top i))
  ∧ ∀ z, newton_step cS cQ cP z
         = csub z (cdiv (spec_p cS cQ cP z) (spec_dp cS cQ z)).
Proof.
  intros Hr Hc Hbuf cS cQ cP. split.
  - rewrite newton_work_buffer by done. f_equal. unfold final_iterate.
    apply iter_ext. intros z. apply newton_step_spec.
  - intros z. apply newton_step_spec.
Qed.

Lemma C4_seed_updated_N_times_witness :
  (newton (CL := textbook_complex)
     (complex_of_ints (-2) 1) (complex_of_ints 2 2) (complex_of_ints (-1) (-2))
     2 1 (F64.of_int 1) (F64.of_int (-2)) (F64.of_int 2)
     (replicate 2 (complex_of_ints 0 0)) (replicate 8 9) 5%nat).1 !! 1%nat
  = Some (Nat.iter 5
      (spec_update (CL := textbook_complex)
         (complex_of_ints (-1) 1) (complex_of_ints 0 (-5))
         (complex_of_ints 2 14))
      (complex_of_ints (-1) 2)).
Proof.
  exact (proj1 (C4_seed_updated_N_times (CL := textbook_complex)
           (complex_of_ints (-2) 1) (complex_of_ints 2 2)
           (complex_of_ints (-1) (-2)) 2 1 (F64.of_int 1) (F64.of_int (-2))
           (F64.of_int 2) (replicate 2 (complex_of_ints 0 0)) (replicate 8 9)
           5%nat (0, 1)%nat ltac:(cbn; lia) ltac:(cbn; lia) ltac:(cbn; lia))).
Defined.

(** C9.  When the final iterate of a pixel has a NaN component, the three
    squared distances are NaN, every comparison of the classification is
    false, and the pixel gets [FILL_INTENSITY] in channel 2, the channel of
    root [c], and 0 in channels 0 and 1. *)
Theorem C9_nan_iterate_colours_channel_2 {CL : ComplexLib} (a b c : complex)
    (w h : nat) (unit left top : double) (buf : list complex) (out : list Z)
    (iterations : nat) (i : item) (x : complex) :
  (i.1 < h)%nat → (i.2 < w)%nat →
  (h * w ≤ length buf)%nat → (h * w * 4 ≤ length out)%nat →
  (newton a b c w h unit left top buf out iterations).1 !! linear w i = Some x →
  is_nan (real x) || is_nan (imag x) = true →
  (F64.leb (hyp x a) (hyp x b) = false ∧ F64.leb (hyp x a) (hyp x c) = false
   ∧ F64.leb (hyp x b) (hyp x a) = false ∧ F64.leb (hyp x b) (hyp x c) = false)
  ∧ pixel_at (newton a b c w h unit left top buf out iterations).2 w i
    = [0; 0; FILL_INTENSITY; 0].
Proof.
  intros Hr Hc Hbuf Hout Hx Hnan. split.
  - by rewrite !hyp_nan.
  - rewrite newton_work_buffer in Hx by done. injection Hx as Hx.
    rewrite newton_pixel, Hx, channel_nan by done. reflexivity.
Qed.

Lemma C9_nan_iterate_colours_channel_2_witness :
  pixel_at
    (newton (CL := textbook_complex)
       (complex_of_ints 0 0) (complex_of_ints 0 0) (complex_of_ints 0 0)
       1 1 (F64.of_int 1) (F64.of_int 0) (F64.of_int 0)
       [complex_of_ints 7 7] [9; 9; 9; 9] 1%nat).2 1 (0, 0)%nat
  = [0; 0; FILL_INTENSITY; 0].
Proof.
  apply (C9_nan_iterate_colours_channel_2 (CL := textbook_complex)
           (complex_of_ints 0 0) (complex_of_ints 0 0) (complex_of_ints 0 0)
           1 1 (F64.of_int 1) (F64.of_int 0) (F64.of_int 0)
           [complex_of_ints 7 7] [9; 9; 9; 9] 1%nat (0, 0)%nat
           (Complex S754_nan S754_nan));
    [cbn; lia..| vm_compute; reflexivity | reflexivity].
Defined.

(** ** Floating-point facts the event handling relies on *)

Lemma SFopp_binary_round_aux (prec emax : Z) (s : bool) (m e : Z) (l : location) :
  SFopp (binary_round_aux prec emax s m e l)
  = binary_round_aux prec emax (negb s) m e l.
Proof.
  unfold binary_round_aux.
  destruct (shr_fexp prec emax m e l) as [mrs' e'].
  destruct (shr_fexp prec emax _ e' loc_Exact) as [mrs'' e''].
  destruct (shr_m mrs''); [done| |done].
  by destruct (e'' <=? emax - prec).
Qed.

Lemma SFopp_binary_round (prec emax : Z) (s : bool) (m : positive) (e : Z) :
  SFopp (binary_round prec emax s m e) = binary_round prec emax (negb s) m e.
Proof.
  unfold binary_round. destruct (shl_align _ _ _) as [mz ez].
  apply SFopp_binary_round_aux.
Qed.

Lemma SFopp_binary_normalize (prec emax m e : Z) :
  m ≠ 0 →
  SFopp (binary_normalize prec emax m e false)
  = binary_normalize prec emax (- m) e false.
Proof.
  intros Hm. destruct m as [|p|p]; [done|..]; cbn; apply SFopp_binary_round.
Qed.

Lemma SFabs_SFopp (x : spec_float) : SFabs (SFopp x) = SFabs x.
Proof. by destruct x. Qed.

Lemma SFabs_binary_normalize_opp (prec emax m e : Z) :
  SFabs (binary_normalize prec emax (- m) e false)
  = SFabs (binary_normalize prec emax m e false).
Proof.
  destruct (decide (m = 0)) as [->|Hm]; [done|].
  by rewrite <- SFopp_binary_normalize, SFabs_SFopp.
Qed.

(** [|x - y| = |y - x|], bit for bit. *)
Lemma SFabs_SFsub_sym (prec emax : Z) (x y : spec_float) :
  SFabs (SFsub prec emax x y) = SFabs (SFsub prec emax y x).
Proof.
  destruct x as [sx|sx| |sx mx ex], y as [sy|sy| |sy my ey]; cbn [SFsub];
    try reflexivity; try (by destruct sx, sy).
  rewrite (Z.min_comm ey ex).
  rewrite <- SFabs_binary_normalize_opp. do 2 f_equal. lia.
Qed.

(** ** The variables of [main] under events, keys and rendering *)

Ltac state_simpl :=
  cbn [pixels buffer running changed iteration_count a b c unit_width left top
       unit_height roots0 roots1 roots2 point_dragging_index position_dragging
       cout set_buffers set_running set_changed set_iteration_count set_a set_b
       set_c set_unit_width set_left set_top set_unit_height set_roots
       set_point_dragging_index set_position_dragging print pan] in *.

Ltac event_cases e :=
  unfold handle_event;
  destruct e as [| |[]|[]| | |[]|]; state_simpl;
  repeat (case_match; state_simpl).

Ltac keys_cases :=
  unfold handle_keys; state_simpl;
  repeat (case_match; state_simpl).

Section MainFacts.
Context {CL : ComplexLib} {ML : MathLib}.

Lemma render_iteration_count (s : state) :
  iteration_count (render s) = iteration_count s.
Proof. reflexivity. Qed.

Lemma render_viewport (s : state) :
  unit_width (render s) = unit_width s ∧ unit_height (render s) = unit_height s
  ∧ left (render s) = left s ∧ top (render s) = top s.
Proof. done. Qed.

Lemma size_t_range (z : Z) : 0 ≤ size_t z < 2 ^ 64.
Proof. unfold size_t. apply Z.mod_pos_bound. lia. Qed.

Lemma iteration_count_range (s : state) :
  reachable s → 0 ≤ iteration_count s < 2 ^ 64.
Proof.
  induction 1 as [|s e _ IH|s k _ IH|s _ IH _].
  - cbn. unfold ITERATION_COUNT. lia.
  - event_cases e; try apply size_t_range; lia.
  - keys_cases; lia.
  - by rewrite render_iteration_count.
Qed.

Lemma aspect_invariant (s : state) :
  reachable s → unit_height s = F64.mul (unit_width s) aspect.
Proof.
  induction 1 as [|s e _ IH|s k _ IH|s _ IH _].
  - reflexivity.
  - event_cases e; done.
  - keys_cases; done.
  - destruct (render_viewport s) as (-> & -> & _). done.
Qed.
End MainFacts.

(** C5.  In every reachable state (after the set-up, after every event,
    after the held keys of a frame and after a rendering, whatever the wheel
    ticks, keyboard zooms, pans and resets were) [unit_height] is the double
    [unit_width * (HEIGHT / WIDTH)], where [HEIGHT / WIDTH] is exactly 0.75:
    the correctly rounded value of [unit_width * HEIGHT / WIDTH], so within
    one unit in the last place of it. *)
Theorem C5_unit_height_follows_unit_width {CL : ComplexLib} {ML : MathLib} (s : state) :
  reachable s →
  unit_height s
  = F64.mul (unit_width s) (F64.div (F64.of_int HEIGHT) (F64.of_int WIDTH))
  ∧ F64.div (F64.of_int HEIGHT) (F64.of_int WIDTH)
    = S754_finite false (3 * 2 ^ 51) (-53)
  ∧ within_1ulp
      (F64.mul (unit_width s) (F64.div (F64.of_int HEIGHT) (F64.of_int WIDTH)))
      (unit_height s).
Proof.
  intros Hs. pose proof (aspect_invariant s Hs) as Hinv.
  split; [exact Hinv|]. split; [reflexivity|]. left. exact Hinv.
Qed.

Lemma C5_unit_height_follows_unit_width_witness :
  let s := handle_keys
             (handle_event (ML := repeated_math) init (SDL_MOUSEWHEEL 3))
             (Keyboard false false false false true false false) in
  unit_height s = F64.mul (unit_width s) (F64.div (F64.of_int 768) (F64.of_int 1024)).
Proof.
  exact (proj1 (C5_unit_height_follows_unit_width
                  (CL := textbook_complex) (ML := repeated_math) _
                  (reachable_keys _ _ (reachable_event _ _ reachable_init)))).
Defined.

(** C7.  The iteration count is a non-negative integer (a [size_t]) in every
    reachable state.  It starts at 20; a key-down of Up adds 1 to it (as
    [size_t] arithmetic does: modulo [2^64], so it is [count + 1] unless the
    count is [2^64 - 1]); a key-down of Down at count 0 leaves it at 0. *)
Theorem C7_iteration_count {CL : ComplexLib} {ML : MathLib} (s : state) :
  reachable s →
  iteration_count init = 20
  ∧ 0 ≤ iteration_count s < 2 ^ 64
  ∧ iteration_count (handle_event s (SDL_KEYDOWN SDLK_UP))
    = (iteration_count s + 1) mod 2 ^ 64
  ∧ (iteration_count s < 2 ^ 64 - 1 →
     iteration_count (handle_event s (SDL_KEYDOWN SDLK_UP)) = iteration_count s + 1)
  ∧ (iteration_count s = 0 →
     iteration_count (handle_event s (SDL_KEYDOWN SDLK_DOWN)) = 0).
Proof.
  intros Hs. pose proof (iteration_count_range s Hs) as Hr.
  split; [reflexivity|]. split; [exact Hr|]. split; [reflexivity|]. split.
  - intros Hlt. cbn. unfold size_t. apply Z.mod_small. lia.
  - intros H0'. cbn. by rewrite H0'.
Qed.

Lemma C7_iteration_count_witness :
  let s := handle_event (ML := repeated_math) init (SDL_KEYDOWN SDLK_DOWN) in
  0 ≤ iteration_count s < 2 ^ 64
  ∧ iteration_count (handle_event (ML := repeated_math) s (SDL_KEYDOWN SDLK_UP))
    = iteration_count s + 1.
Proof.
  pose proof (C7_iteration_count (CL := textbook_complex) (ML := repeated_math)
                (handle_event (ML := repeated_math) init (SDL_KEYDOWN SDLK_DOWN))
                (reachable_event _ _ reachable_init)) as (_ & Hr & _ & Hup & _).
  split; [exact Hr|]. apply Hup. lazy. reflexivity.
Defined.

Lemma point_dragging_index_range {CL : ComplexLib} {ML : MathLib} (s : state) :
  reachable s → 0 ≤ point_dragging_index s ≤ 3.
Proof.
  induction 1 as [|s e _ IH|s k _ IH|s _ IH _].
  - done.
  - event_cases e; lia.
  - keys_cases; lia.
  - exact IH.
Qed.

Lemma left_then_right_down_reachable :
  reachable (CL := textbook_complex) (ML := repeated_math)
    (left_then_right_down (CL := textbook_complex) (ML := repeated_math)).
Proof.
  do 2 apply reachable_event.
  change (reachable (CL := textbook_complex) (ML := repeated_math)
            (render (CL := textbook_complex) (handle_keys init no_keys))).
  apply reachable_render; [|reflexivity].
  apply reachable_keys, reachable_init.
Qed.

(** C2, as the program has it.  The two modes are two independent
    variables, and after the left button goes down on a marker and then the
    right button goes down both are set.  What excludes one another is their
    effect on a pointer motion.  While a root is dragged the motion leaves
    the viewport alone and, in every reachable state, moves exactly the
    dragged root: it puts that root at the point of the plane under the
    pointer (narrowed to [float]) and keeps the other two.  The viewport is
    panned, and the roots are left alone, only when no root is dragged; with
    neither mode active the motion changes nothing. *)
Theorem C2_motion_drags_or_pans {CL : ComplexLib} {ML : MathLib} (s : state)
    (x y xrel yrel : Z) :
  let s' := handle_event s (SDL_MOUSEMOTION x y xrel yrel) in
  let v := Complex
             (F32.of_double (pix_to_coords_x (F64.of_int x) (left s) (unit_width s)))
             (F32.of_double (pix_to_coords_y (F64.of_int y) (top s) (unit_height s))) in
  (DraggingRoot s → left s' = left s ∧ top s' = top s)
  ∧ (reachable s → DraggingRoot s →
     point_dragging_index s = 1 ∧ a s' = v ∧ b s' = b s ∧ c s' = c s
     ∨ point_dragging_index s = 2 ∧ a s' = a s ∧ b s' = v ∧ c s' = c s
     ∨ point_dragging_index s = 3 ∧ a s' = a s ∧ b s' = b s ∧ c s' = v)
  ∧ (¬ DraggingRoot s → a s' = a s ∧ b s' = b s ∧ c s' = c s)
  ∧ (¬ DraggingRoot s → PanningViewport s →
     left s' = left (pan xrel yrel s) ∧ top s' = top (pan xrel yrel s))
  ∧ (¬ DraggingRoot s → ¬ PanningViewport s → s' = s).
Proof.
  unfold DraggingRoot, PanningViewport. cbn zeta.
  split; [|split; [|split; [|split]]].
  - intros Hd. apply Z.eqb_neq in Hd. unfold handle_event. rewrite Hd.
    cbn [negb]. state_simpl. by repeat (case_match; state_simpl).
  - intros Hs Hd. pose proof (point_dragging_index_range s Hs) as Hr.
    unfold handle_event.
    assert (Hcases : point_dragging_index s = 1 ∨ point_dragging_index s = 2
                     ∨ point_dragging_index s = 3) by lia.
    destruct Hcases as [Hi|[Hi|Hi]]; rewrite Hi; cbn [Z.eqb negb]; state_simpl;
      rewrite Hi; state_simpl; auto 10.
  - intros Hd. apply dec_stable in Hd. unfold handle_event. rewrite Hd.
    cbn [Z.eqb negb]. by repeat (case_match; state_simpl).
  - intros Hd Hp. apply dec_stable in Hd. unfold handle_event. rewrite Hd, Hp.
    cbn [Z.eqb negb]. by state_simpl.
  - intros Hd Hp. apply dec_stable in Hd. unfold handle_event. rewrite Hd.
    cbn [Z.eqb negb]. by destruct (position_dragging s).
Qed.

Lemma C2_motion_drags_or_pans_witness :
  let s := left_then_right_down (CL := textbook_complex) (ML := repeated_math) in
  let s' := handle_event (ML := repeated_math) s (SDL_MOUSEMOTION 300 300 (-7) (-7)) in
  a s' = Complex
           (F32.of_double (pix_to_coords_x (F64.of_int 300) (left s) (unit_width s)))
           (F32.of_double (pix_to_coords_y (F64.of_int 300) (top s) (unit_height s)))
  ∧ b s' = b s ∧ c s' = c s ∧ left s' = left s ∧ top s' = top s.
Proof.
  assert (Hd : DraggingRoot
                 (left_then_right_down (CL := textbook_complex) (ML := repeated_math))).
  { lazy. discriminate. }
  pose proof (C2_motion_drags_or_pans (CL := textbook_complex) (ML := repeated_math)
                (left_then_right_down (CL := textbook_complex) (ML := repeated_math))
                300 300 (-7) (-7)) as (Hv & Hr & _).
  destruct (Hr left_then_right_down_reachable Hd)
    as [(_ & Ha & Hb & Hc)|[(Hi & _)|(Hi & _)]].
  - exact (conj Ha (conj Hb (conj Hc (Hv Hd)))).
  - exfalso. lazy in Hi. discriminate Hi.
  - exfalso. lazy in Hi. discriminate Hi.
Defined.

(** The claim C2 fails: the state after the first frame, a left button down
    on the marker of root [a] and a right button down is reachable and has
    both modes active. *)
Lemma C2_both_modes_active :
  let s := left_then_right_down (CL := textbook_complex) (ML := repeated_math) in
  reachable (CL := textbook_complex) (ML := repeated_math) s
  ∧ DraggingRoot s ∧ PanningViewport s.
Proof.
  split; [|split].
  - do 2 apply reachable_event.
    change (reachable (CL := textbook_complex) (ML := repeated_math)
              (render (CL := textbook_complex) (handle_keys init no_keys))).
    apply reachable_render; [|reflexivity].
    apply reachable_keys, reachable_init.
  - lazy. discriminate.
  - reflexivity.
Qed.

(** C3, on the program.  When the video subsystem starts but the window, the
    renderer or the texture cannot be created, [main] jumps to [end] and
    returns 0, the exit code of a normal close; only a failure of [SDL_Init]
    returns 1. *)
Theorem C3_creation_failure_exits_0 {CL : ComplexLib} {ML : MathLib} (env : sdl)
    (frames : list (list event * keyboard)) :
  SDL_Init env = 0 →
  SDL_CreateWindow env && SDL_CreateRenderer env && SDL_CreateTexture env = false →
  ∃ calls, main env frames = Some (0, calls).
Proof.
  intros Hinit Hfail. unfold main. rewrite Hinit. cbn [Z.eqb negb].
  destruct (SDL_CreateWindow env); [|by eexists].
  destruct (SDL_CreateRenderer env); [|by eexists].
  destruct (SDL_CreateTexture env); [discriminate Hfail|by eexists].
Qed.

Lemma C3_creation_failure_exits_0_witness :
  ∃ calls,
    main (CL := textbook_complex) (ML := repeated_math) (Sdl 0 false true true) []
    = Some (0, calls).
Proof.
  apply (C3_creation_failure_exits_0 (CL := textbook_complex) (ML := repeated_math)
           (Sdl 0 false true true) []); reflexivity.
Defined.

Lemma is_in_range_pointer_first (x1 y1 x2 y2 : double) :
  is_in_range x1 y1 x2 y2
  = F64.ltb (F64.abs (F64.sub x2 x1)) (F64.of_int 5)
    && F64.ltb (F64.abs (F64.sub y2 y1)) (F64.of_int 5).
Proof.
  unfold is_in_range, F64.abs, F64.sub.
  by rewrite (SFabs_SFsub_sym _ _ x1 x2), (SFabs_SFsub_sym _ _ y1 y2).
Qed.

(** C10.  On a left button down the markers are tested in the order [a],
    [b], [c].  The test of a marker succeeds exactly when
    [|pointer_x - centre_x| < 5] and [|pointer_y - centre_y| < 5] both hold
    (an open square, each axis on its own), and the first marker that passes
    becomes the dragged root; when the marker of [a] passes, [a] is the one
    dragged whatever the other two tests say. *)
Theorem C10_first_marker_hit_is_dragged {ML : MathLib} (s : state) (x y : Z) :
  let s' := handle_event s (SDL_MOUSEBUTTONDOWN SDL_BUTTON_LEFT x y) in
  (∀ r, hit r x y = true ↔
        F64.ltb (F64.abs (F64.sub (F64.of_int x) (center_x r))) (F64.of_int 5) = true
        ∧ F64.ltb (F64.abs (F64.sub (F64.of_int y) (center_y r))) (F64.of_int 5) = true)
  ∧ point_dragging_index s'
    = (if hit (roots0 s) x y then 1
       else if hit (roots1 s) x y then 2
       else if hit (roots2 s) x y then 3
       else point_dragging_index s)
  ∧ (hit (roots0 s) x y = true → point_dragging_index s' = 1).
Proof.
  cbn zeta. split; [|split].
  - intros r. unfold hit. rewrite is_in_range_pointer_first.
    apply andb_true_iff.
  - unfold handle_event. by repeat (case_match; state_simpl).
  - intros Hhit. unfold handle_event. rewrite Hhit. by state_simpl.
Qed.

Lemma C10_first_marker_hit_is_dragged_witness :
  point_dragging_index
    (handle_event (ML := repeated_math) init (SDL_MOUSEBUTTONDOWN SDL_BUTTON_LEFT 9 1))
  = 1.
Proof.
  apply (C10_first_marker_hit_is_dragged (ML := repeated_math) init 9 1).
  lazy. reflexivity.
Defined.

(** ** Floating-point facts the viewport relies on *)

Lemma sf_eqb_eq (x y : spec_float) : sf_eqb x y = true → x = y.
Proof.
  destruct x as [s|s| |s m e], y as [s'|s'| |s' m' e']; cbn; try done.
  - intros Hs. apply eqb_prop in Hs. by subst.
  - intros Hs. apply eqb_prop in Hs. by subst.
  - intros Hs. apply andb_true_iff in Hs as [Hs He].
    apply andb_true_iff in Hs as [Hs Hm].
    apply eqb_prop in Hs. apply Pos.eqb_eq in Hm. apply Z.eqb_eq in He.
    by subst.
Qed.

Lemma forallb_seqZ (f : Z → bool) (m n : Z) :
  forallb f (seqZ m n) = true → ∀ z, m ≤ z < m + n → f z = true.
Proof.
  intros Hall z Hz. rewrite forallb_forall in Hall. apply Hall.
  apply list_elem_of_In, elem_of_seqZ. lia.
Qed.

Lemma SFmul_opp_l (prec emax : Z) (x y : spec_float) :
  SFmul prec emax (SFopp x) y = SFopp (SFmul prec emax x y).
Proof.
  destruct x as [sx|sx| |sx mx ex], y as [sy|sy| |sy my ey]; cbn;
    rewrite <- ?negb_xorb_l; try reflexivity.
  symmetry. apply SFopp_binary_round_aux.
Qed.

Lemma SFdiv_opp_l (prec emax : Z) (x y : spec_float) :
  SFdiv prec emax (SFopp x) y = SFopp (SFdiv prec emax x y).
Proof.
  destruct x as [sx|sx| |sx mx ex], y as [sy|sy| |sy my ey]; cbn [SFdiv SFopp];
    rewrite <- ?negb_xorb_l; try reflexivity.
  destruct (SFdiv_core_binary _ _ _ _ _ _) as [[mz ez] lz].
  symmetry. apply SFopp_binary_round_aux.
Qed.

Lemma SFsub_opp_r (prec emax : Z) (x y : spec_float) :
  SFsub prec emax x (SFopp y) = SFadd prec emax x y.
Proof.
  destruct x as [sx|sx| |sx mx ex], y as [sy|sy| |sy my ey]; cbn [SFsub SFadd SFopp];
    try reflexivity; try (by destruct sx, sy); by rewrite negb_involutive.
Qed.

Lemma SFadd_opp_r (prec emax : Z) (x y : spec_float) :
  SFadd prec emax x (SFopp y) = SFsub prec emax x y.
Proof.
  destruct x as [sx|sx| |sx mx ex], y as [sy|sy| |sy my ey]; cbn [SFsub SFadd SFopp];
    try reflexivity; by destruct sx, sy.
Qed.

(** The offset of a pan by [-xrel] is the opposite of that of a pan by
    [xrel], bit for bit. *)
Lemma pan_offset_opp (u k : double) (xrel : Z) :
  xrel ≠ 0 →
  F64.div (F64.mul (F64.of_int (- xrel)) u) k
  = F64.opp (F64.div (F64.mul (F64.of_int xrel) u) k).
Proof.
  intros Hx. unfold F64.div, F64.mul, F64.of_int, F64.opp.
  by rewrite <- SFopp_binary_normalize, SFmul_opp_l, SFdiv_opp_l.
Qed.

Lemma pan_left_back (l u : double) (xrel : Z) :
  xrel ≠ 0 →
  pan_left (pan_left l u xrel) u (- xrel)
  = let d := F64.div (F64.mul (F64.of_int xrel) u) (F64.of_int WIDTH) in
    F64.add (F64.sub l d) d.
Proof.
  intros Hx. unfold pan_left. rewrite pan_offset_opp by done.
  apply SFsub_opp_r.
Qed.

Lemma pan_top_back (t u : double) (yrel : Z) :
  yrel ≠ 0 →
  pan_top (pan_top t u yrel) u (- yrel)
  = let e := F64.div (F64.mul (F64.of_int yrel) u) (F64.of_int HEIGHT) in
    F64.sub (F64.add t e) e.
Proof.
  intros Hy. unfold pan_top. rewrite pan_offset_opp by done.
  apply SFadd_opp_r.
Qed.


Lemma startup_viewport :
  left init = F64.of_int (-5) ∧ top init = F64.of_int 4
  ∧ unit_width init = F64.of_int 10 ∧ unit_height init = F64.lit 75 10.
Proof. repeat split; reflexivity. Qed.

(** ** Operations that do not round *)

Lemma Zpos_shiftl_nat (m : positive) (n : nat) :
  Z.pos (Pos.shiftl_nat m n) = Z.pos m * 2 ^ Z.of_nat n.
Proof.
  induction n as [|n IH]; [cbn; lia|].
  rewrite Nat2Z.inj_succ, Z.pow_succ_r by lia.
  change (Pos.shiftl_nat m (S n)) with (xO (Pos.shiftl_nat m n)).
  rewrite Pos2Z.inj_xO, IH. lia.
Qed.

Lemma digits2_shiftl_nat (m : positive) (n : nat) :
  Z.pos (digits2_pos (Pos.shiftl_nat m n)) = Z.pos (digits2_pos m) + Z.of_nat n.
Proof.
  induction n as [|n IH]; [cbn; lia|].
  change (Pos.shiftl_nat m (S n)) with (xO (Pos.shiftl_nat m n)).
  cbn [digits2_pos]. rewrite Pos2Z.inj_succ, IH. lia.
Qed.

Lemma pos_iter_xO (m d : positive) :
  Pos.iter xO m d = Pos.shiftl_nat m (Pos.to_nat d).
Proof.
  rewrite Pos2Nat.inj_iter. reflexivity.
Qed.

Lemma iter_pos_nat {A : Type} (f : A → A) (p : positive) (x : A) :
  SpecFloat.iter_pos f p x = Nat.iter (Pos.to_nat p) f x.
Proof.
  revert x. induction p as [p IH|p IH|]; intros x; cbn [SpecFloat.iter_pos].
  - rewrite !IH, Pos2Nat.inj_xI.
    replace (S (2 * Pos.to_nat p))%nat with (Pos.to_nat p + (Pos.to_nat p + 1))%nat by lia.
    rewrite !Nat.iter_add. done.
  - rewrite !IH, Pos2Nat.inj_xO.
    replace (2 * Pos.to_nat p)%nat with (Pos.to_nat p + Pos.to_nat p)%nat by lia.
    by rewrite Nat.iter_add.
  - done.
Qed.

Lemma shr_shiftl_nat (m : positive) (n : nat) :
  Nat.iter n shr_1 (Build_shr_record (Z.pos (Pos.shiftl_nat m n)) false false)
  = Build_shr_record (Z.pos m) false false.
Proof.
  induction n as [|n IH]; [done|].
  rewrite Nat.iter_succ_r.
  change (Pos.shiftl_nat m (S n)) with (xO (Pos.shiftl_nat m n)).
  cbn [shr_1 orb]. exact IH.
Qed.

Lemma pos_of_shift (M m : positive) (n : Z) :
  0 ≤ n → Z.pos M = Z.pos m * 2 ^ n → M = Pos.shiftl_nat m (Z.to_nat n).
Proof.
  intros Hn HM. apply Pos2Z.inj. rewrite Zpos_shiftl_nat, Z2Nat.id by done. done.
Qed.

Lemma binary_round_aux_canonical (prec emax : Z) (s : bool) (M m : positive) (E e : Z) :
  bounded prec emax m e = true → E ≤ e → Z.pos M = Z.pos m * 2 ^ (e - E) →
  binary_round_aux prec emax s (Z.pos M) E loc_Exact = S754_finite s m e.
Proof.
  intros Hb HE HM. apply andb_true_iff in Hb as [Hc He].
  unfold canonical_mantissa in Hc. apply Z.eqb_eq in Hc. apply Z.leb_le in He.
  pose proof (pos_of_shift M m (e - E) ltac:(lia) HM) as ->.
  unfold binary_round_aux, shr_fexp. cbn [Zdigits2 shr_record_of_loc].
  rewrite digits2_shiftl_nat, Z2Nat.id by lia.
  replace (Z.pos (digits2_pos m) + (e - E) + E) with (Z.pos (digits2_pos m) + e) by lia.
  rewrite Hc.
  assert (Hshr : shr (Build_shr_record (Z.pos (Pos.shiftl_nat m (Z.to_nat (e - E)))) false false) E (e - E)
                 = (Build_shr_record (Z.pos m) false false, e)).
  { unfold shr. destruct (e - E) as [|p|p] eqn:Hp; [| |lia].
    - cbn. f_equal. lia.
    - rewrite iter_pos_nat. change (Z.to_nat (Z.pos p)) with (Pos.to_nat p).
      rewrite shr_shiftl_nat. f_equal. lia. }
  rewrite Hshr. cbn [shr_m loc_of_shr_record round_nearest_even Zdigits2 shr_record_of_loc].
  rewrite Hc, Z.sub_diag. cbn [shr shr_m].
  apply Z.leb_le in He. by rewrite He.
Qed.

Lemma shl_align_value (m : positive) (e ez : Z) :
  ez ≤ e →
  Z.pos (shl_align m e ez).1 = Z.pos m * 2 ^ (e - ez).
Proof.
  intros He. unfold shl_align.
  destruct (ez - e) as [|p|p] eqn:Hp; cbn [fst].
  - replace (e - ez) with 0 by lia. lia.
  - lia.
  - rewrite pos_iter_xO, Zpos_shiftl_nat, positive_nat_Z.
    f_equal. f_equal. lia.
Qed.

Lemma binary_round_canonical (prec emax : Z) (s : bool) (M m : positive) (E e : Z) :
  bounded prec emax m e = true →
  (E ≤ e ∧ Z.pos M = Z.pos m * 2 ^ (e - E))
  ∨ (e ≤ E ∧ Z.pos m = Z.pos M * 2 ^ (E - e)) →
  binary_round prec emax s M E = S754_finite s m e.
Proof.
  intros Hb Hv.
  pose proof Hb as Hb'. apply andb_true_iff in Hb' as [Hc _].
  unfold canonical_mantissa in Hc. apply Z.eqb_eq in Hc.
  unfold binary_round.
  destruct Hv as [[HE HM]|[HE Hm]].
  - pose proof (pos_of_shift M m (e - E) ltac:(lia) HM) as HMs.
    assert (Hd : Z.pos (digits2_pos M) + E = Z.pos (digits2_pos m) + e).
    { rewrite HMs, digits2_shiftl_nat, Z2Nat.id by lia. lia. }
    rewrite Hd, Hc. unfold shl_align.
    destruct (e - E) as [|p|p] eqn:Hp; [| |lia];
      apply binary_round_aux_canonical; try done; rewrite ?Hp; done.
  - pose proof (pos_of_shift m M (E - e) ltac:(lia) Hm) as Hms.
    assert (Hd : Z.pos (digits2_pos M) + E = Z.pos (digits2_pos m) + e).
    { rewrite Hms, digits2_shiftl_nat, Z2Nat.id by lia. lia. }
    rewrite Hd, Hc.
    pose proof (shl_align_value M E e HE) as Hsv.
    assert (Hsnd : (shl_align M E e).2 = e ∨ (E = e)).
    { unfold shl_align. destruct (e - E) eqn:Hp; cbn [snd]; lia. }
    destruct (shl_align M E e) as [mz ez] eqn:Hsh. cbn [fst snd] in *.
    assert (Hez : ez = e).
    { destruct Hsnd as [?|?]; [done|]. subst E. unfold shl_align in Hsh.
      rewrite Z.sub_diag in Hsh. by injection Hsh as _ <-. }
    subst ez. apply binary_round_aux_canonical; [done|lia|].
    rewrite Z.sub_diag, Hsv, <- Hm. lia.
Qed.

Lemma binary_normalize_canonical (prec emax : Z) (s : bool) (m : positive)
    (e z ez k : Z) :
  bounded prec emax m e = true → k ≤ ez → k ≤ e →
  z * 2 ^ (ez - k) = cond_Zopp s (Z.pos m) * 2 ^ (e - k) →
  binary_normalize prec emax z ez false = S754_finite s m e.
Proof.
  intros Hb Hkz Hke Hz.
  assert (H2z : 0 < 2 ^ (ez - k)) by (apply Z.pow_pos_nonneg; lia).
  assert (H2e : 0 < 2 ^ (e - k)) by (apply Z.pow_pos_nonneg; lia).
  assert (Hrel : ∀ M : positive, Z.pos M * 2 ^ (ez - k) = Z.pos m * 2 ^ (e - k) →
    (ez ≤ e ∧ Z.pos M = Z.pos m * 2 ^ (e - ez))
    ∨ (e ≤ ez ∧ Z.pos m = Z.pos M * 2 ^ (ez - e))).
  { intros M HM. destruct (Z.le_gt_cases ez e) as [Hle|Hgt].
    - left. split; [done|].
      replace (e - k) with ((e - ez) + (ez - k)) in HM by lia.
      rewrite Z.pow_add_r in HM by lia. nia.
    - right. split; [lia|].
      replace (ez - k) with ((ez - e) + (e - k)) in HM by lia.
      rewrite Z.pow_add_r in HM by lia. nia. }
  destruct z as [|M|M], s; cbn [cond_Zopp Z.opp binary_normalize] in *; try nia.
  - apply binary_round_canonical; [done|]. apply Hrel. lia.
  - apply binary_round_canonical; [done|]. apply Hrel. lia.
Qed.

Lemma scaled_finite (k : Z) (s : bool) (m : positive) (e z : Z) :
  scaled k (S754_finite s m e) = Some z →
  k ≤ e ∧ z = cond_Zopp s (Z.pos m) * 2 ^ (e - k).
Proof.
  cbn. destruct (k <=? e) eqn:Hk; [|done]. apply Z.leb_le in Hk.
  intros [= <-]. done.
Qed.

Lemma aligned_value (k : Z) (s : bool) (m : positive) (e ez : Z) :
  k ≤ ez → ez ≤ e →
  cond_Zopp s (Z.pos (shl_align m e ez).1) * 2 ^ (ez - k)
  = cond_Zopp s (Z.pos m) * 2 ^ (e - k).
Proof.
  intros Hk He. rewrite shl_align_value by done.
  replace (e - k) with ((e - ez) + (ez - k)) by lia.
  rewrite Z.pow_add_r by lia. destruct s; cbn [cond_Zopp]; lia.
Qed.

(** Adding back what was taken away gives the number one started from, when
    taking it away was exact. *)
Lemma SFadd_SFsub_exact (prec emax : Z) (x y : spec_float) :
  is_nonzero_finite x = true → is_finite y = true →
  valid_binary prec emax x = true → valid_binary prec emax y = true →
  exact_difference x y (SFsub prec emax x y) →
  SFadd prec emax (SFsub prec emax x y) y = x.
Proof.
  intros Hx Hy Hvx Hvy (k & zx & zy & Hsx & Hsy & Hsr).
  destruct x as [| | |sx mx ex]; try discriminate Hx.
  destruct y as [sy| | |sy my ey]; try discriminate Hy; [done|].
  cbn [valid_binary] in Hvx, Hvy.
  apply scaled_finite in Hsx as [Hkx ->]. apply scaled_finite in Hsy as [Hky ->].
  destruct (SFsub prec emax (S754_finite sx mx ex) (S754_finite sy my ey))
    as [sr| | |sr mr er] eqn:Hr; try discriminate Hsr.
  - cbn in Hsr. injection Hsr as Hsr. cbn [SFadd].
    rewrite <- (binary_normalize_canonical prec emax sy my ey
                  (cond_Zopp sy (Z.pos my)) ey k Hvy Hky Hky eq_refl).
    apply (binary_normalize_canonical prec emax sx mx ex _ ey k); [done..|lia].
  - apply scaled_finite in Hsr as [Hkr Hsr]. cbn [SFadd].
    apply (binary_normalize_canonical prec emax sx mx ex _ _ k); [done|lia|done|].
    rewrite Z.mul_add_distr_r, !aligned_value by lia. lia.
Qed.

Lemma scaled_SFopp (k : Z) (y : spec_float) (z : Z) :
  scaled k y = Some z → scaled k (SFopp y) = Some (- z).
Proof.
  destruct y as [s| | |s m e]; cbn; try done.
  - by intros [= <-].
  - destruct (k <=? e); [|done]. intros [= <-]. f_equal.
    destruct s; cbn [negb cond_Zopp]; lia.
Qed.

Lemma SFsub_SFadd_exact (prec emax : Z) (x y : spec_float) :
  is_nonzero_finite x = true → is_finite y = true →
  valid_binary prec emax x = true → valid_binary prec emax y = true →
  exact_sum x y (SFadd prec emax x y) →
  SFsub prec emax (SFadd prec emax x y) y = x.
Proof.
  intros Hx Hy Hvx Hvy (k & zx & zy & Hsx & Hsy & Hsr).
  rewrite <- (SFsub_opp_r prec emax x y), <- SFadd_opp_r.
  apply SFadd_SFsub_exact; try done.
  - by destruct y.
  - by destruct y.
  - exists k, zx, (- zy). split; [done|]. split; [by apply scaled_SFopp|].
    rewrite SFsub_opp_r. rewrite Hsr. f_equal. lia.
Qed.











(** The offset of a pan by no pixel is a zero whenever it is finite, and
    taking it away from, or adding it to, a non-zero number changes nothing. *)
Lemma pan_offset_zero (u : double) (n : Z) :
  n = WIDTH ∨ n = HEIGHT →
  is_finite (F64.div (F64.mul (F64.of_int 0) u) (F64.of_int n)) = true →
  ∃ s, F64.div (F64.mul (F64.of_int 0) u) (F64.of_int n) = S754_zero s.
Proof.
  intros [-> | ->] Hd; destruct u as [su|su| |su mu eu];
    try (lazy in Hd; discriminate Hd); eexists; lazy; reflexivity.
Qed.

Lemma pan_left_zero (l u : double) :
  is_nonzero_finite l = true →
  is_finite (F64.div (F64.mul (F64.of_int 0) u) (F64.of_int WIDTH)) = true →
  pan_left l u 0 = l.
Proof.
  intros Hl Hd. destruct (pan_offset_zero u WIDTH (or_introl eq_refl) Hd) as [s Hs].
  unfold pan_left. rewrite Hs.
  destruct l as [| | |sl ml el]; try discriminate Hl. reflexivity.
Qed.

Lemma pan_top_zero (t u : double) :
  is_nonzero_finite t = true →
  is_finite (F64.div (F64.mul (F64.of_int 0) u) (F64.of_int HEIGHT)) = true →
  pan_top t u 0 = t.
Proof.
  intros Ht Hd. destruct (pan_offset_zero u HEIGHT (or_intror eq_refl) Hd) as [s Hs].
  unfold pan_top. rewrite Hs.
  destruct t as [| | |st mt et]; try discriminate Ht. reflexivity.
Qed.




(** C8, as the program has it.  A pan by [(dx, dy)] followed by a pan by
    [(-dx, -dy)] takes away and gives back the same two offsets
    [d = dx * unit_width / WIDTH] and [e = dy * unit_height / HEIGHT]: for a
    non-zero [dx], [left] ends as [(left - d) + d], and for a non-zero [dy],
    [top] ends as [(top + e) - e], each operation rounded.  On either axis,
    and for every delta, zero included, that is the coordinate one started
    from, bit for bit, whenever the first pan computed [left - d] (or
    [top + e]) without rounding; the two axes do not depend on one another.
    At the viewport the program starts with, [left] is given back for every
    [dx] and [top] for every [dy] of at most 1024 pixels, zero included. *)
Theorem C8_pan_and_back (s : state) (dx dy : Z) :
  let d := F64.div (F64.mul (F64.of_int dx) (unit_width s)) (F64.of_int WIDTH) in
  let e := F64.div (F64.mul (F64.of_int dy) (unit_height s)) (F64.of_int HEIGHT) in
  let s' := pan (- dx) (- dy) (pan dx dy s) in
  (dx ≠ 0 → left s' = F64.add (F64.sub (left s) d) d)
  ∧ (dy ≠ 0 → top s' = F64.sub (F64.add (top s) e) e)
  ∧ (is_nonzero_finite (left s) = true → is_finite d = true →
     valid_binary F64.prec F64.emax (left s) = true →
     valid_binary F64.prec F64.emax d = true →
     exact_difference (left s) d (F64.sub (left s) d) →
     left s' = left s)
  ∧ (is_nonzero_finite (top s) = true → is_finite e = true →
     valid_binary F64.prec F64.emax (top s) = true →
     valid_binary F64.prec F64.emax e = true →
     exact_sum (top s) e (F64.add (top s) e) →
     top s' = top s)
  ∧ (- 1024 ≤ dx ≤ 1024 → left (pan (- dx) (- dy) (pan dx dy init)) = left init)
  ∧ (- 1024 ≤ dy ≤ 1024 → top (pan (- dx) (- dy) (pan dx dy init)) = top init).
Proof.
  cbn zeta. split; [|split; [|split; [|split; [|split]]]].
  - intros Hdx. state_simpl. by apply pan_left_back.
  - intros Hdy. state_simpl. by apply pan_top_back.
  - intros Hl Hd Hvl Hvd Hex. state_simpl.
    destruct (decide (dx = 0)) as [->|Hdx].
    + change (- 0) with 0. by rewrite !(pan_left_zero (left s)).
    + rewrite pan_left_back by done. cbn zeta. by apply SFadd_SFsub_exact.
  - intros Ht He Hvt Hve Hex. state_simpl.
    destruct (decide (dy = 0)) as [->|Hdy].
    + change (- 0) with 0. by rewrite !(pan_top_zero (top s)).
    + rewrite pan_top_back by done. cbn zeta. by apply SFsub_SFadd_exact.
  - intros Hx. state_simpl.
    destruct startup_viewport as (Hl & _ & Hw & _). rewrite Hl, Hw.
    apply sf_eqb_eq.
    apply (forallb_seqZ
             (λ dx, sf_eqb (pan_left (pan_left (F64.of_int (-5)) (F64.of_int 10) dx)
                              (F64.of_int 10) (- dx)) (F64.of_int (-5)))
             (-1024) 2049); [by vm_compute|lia].
  - intros Hy. state_simpl.
    destruct startup_viewport as (_ & Ht & _ & Hh). rewrite Ht, Hh.
    apply sf_eqb_eq.
    apply (forallb_seqZ
             (λ dy, sf_eqb (pan_top (pan_top (F64.of_int 4) (F64.lit 75 10) dy)
                              (F64.lit 75 10) (- dy)) (F64.of_int 4))
             (-1024) 2049); [by vm_compute|lia].
Qed.

Lemma C8_pan_and_back_witness :
  left (pan (- 96) 0 (pan 96 0 init)) = left init
  ∧ top (pan (- 96) 0 (pan 96 0 init)) = top init
  ∧ left (pan (- 96) 0 (pan 96 0 init))
    = F64.add
        (F64.sub (left init)
           (F64.div (F64.mul (F64.of_int 96) (unit_width init)) (F64.of_int WIDTH)))
        (F64.div (F64.mul (F64.of_int 96) (unit_width init)) (F64.of_int WIDTH)).
Proof.
  pose proof (C8_pan_and_back init 96 0) as (Hf & _ & Hl & _ & _ & Ht).
  split; [|split].
  - apply Hl; try (lazy; reflexivity).
    exists (-60), (-5 * 2 ^ 60), (15 * 2 ^ 56). repeat split; lazy; reflexivity.
  - exact (Ht ltac:(lia)).
  - exact (Hf ltac:(lia)).
Defined.

(** The claim C8 fails: after two keyboard zoom-in steps, a pan by 96 pixels
    to the right followed by a pan by 96 pixels to the left leaves [left] one
    unit in the last place away from where it was. *)
Lemma C8_pan_and_back_moves_left :
  left zoomed_twice = S754_finite true 5080623329627341 (-50)
  ∧ left (pan (- 96) 0 (pan 96 0 zoomed_twice))
    = S754_finite true 5080623329627342 (-50)
  ∧ left (pan (- 96) 0 (pan 96 0 zoomed_twice)) ≠ left zoomed_twice.
Proof.
  split; [by lazy|]. split; [by lazy|]. lazy. discriminate.
Qed.

(** * Further properties of the program *)

(** ** The kernel: schedules, bounds and stale buffers *)

Section Schedules.
Context {A : Type} (w blk : nat).
Variable g : item → list A → list A.
Variable F : item → nat → option A → option A.
Hypothesis g_other :
  ∀ i st k, (k `div` blk)%nat ≠ linear w i → g i st !! k = st !! k.
Hypothesis g_own :
  ∀ i st k, (k `div` blk)%nat = linear w i → g i st !! k = F i k (st !! k).
Hypothesis g_length : ∀ i st, length (g i st) = length st.

(** Work items that own distinct blocks can run in any order. *)
Lemma parallel_for_schedule (its its' : list item) (st : list A) :
  its ≡ₚ its' → NoDup (linear w <$> its) →
  parallel_for its g st = parallel_for its' g st.
Proof using g_other g_own.
  intros Hperm Hnd. apply list_eq. intros k.
  destruct (decide ((k `div` blk)%nat ∈ linear w <$> its)) as [Hin|Hout].
  - apply list_elem_of_fmap in Hin as (i & Hk & Hi).
    rewrite (parallel_for_own w blk g F g_other g_own its st i k) by done.
    symmetry. apply (parallel_for_own w blk g F g_other g_own); [|by rewrite <- Hperm|done].
    by rewrite <- Hperm.
  - rewrite (parallel_for_other w blk g g_other) by done.
    symmetry. apply (parallel_for_other w blk g g_other). by rewrite <- Hperm.
Qed.

Lemma parallel_for_length (its : list item) (st : list A) :
  length (parallel_for its g st) = length st.
Proof using g_length.
  unfold parallel_for. revert st.
  induction its as [|i its IH]; intros st; [done|].
  cbn [foldl]. by rewrite IH.
Qed.
End Schedules.

Section Bodies.
Context {CL : ComplexLib}.
Variables (a b c : complex).
Variables (w h : nat) (unit left top : double).
Variables (sum prod_sum prod : complex).
Variable vec0 : list complex.

Let seed_body : item → list complex → list complex :=
  λ i vec, <[linear w i := seed unit left top i]> vec.

Let iterate_body : item → list complex → list complex :=
  λ i vec,
    match vec !! linear w i with
    | Some x => <[linear w i := newton_step sum prod_sum prod x]> vec
    | None => vec
    end.

Let classify_body : item → list Z → list Z :=
  λ i out,
    match vec0 !! linear w i with
    | Some x =>
        let index := (linear w i * 4)%nat in
        <[(index + channel a b c x)%nat := FILL_INTENSITY]> out
    | None => out
    end.

Lemma seed_body_other (i : item) (st : list complex) (k : nat) :
  (k `div` 1)%nat ≠ linear w i → seed_body i st !! k = st !! k.
Proof.
  rewrite Nat.div_1_r. intros Hk. by apply list_lookup_insert_ne.
Qed.

Lemma seed_body_own (i : item) (st : list complex) (k : nat) :
  (k `div` 1)%nat = linear w i →
  seed_body i st !! k = (λ _, seed unit left top i) <$> st !! k.
Proof.
  rewrite Nat.div_1_r. intros ->. unfold seed_body.
  destruct (st !! linear w i) as [x|] eqn:Hx.
  - apply list_lookup_insert_eq. by eapply lookup_lt_Some.
  - cbn. rewrite list_insert_ge; [done|]. by apply lookup_ge_None.
Qed.

Lemma iterate_body_other (i : item) (st : list complex) (k : nat) :
  (k `div` 1)%nat ≠ linear w i → iterate_body i st !! k = st !! k.
Proof.
  rewrite Nat.div_1_r. intros Hk. unfold iterate_body.
  destruct (st !! linear w i); [|done]. by apply list_lookup_insert_ne.
Qed.

Lemma iterate_body_own (i : item) (st : list complex) (k : nat) :
  (k `div` 1)%nat = linear w i →
  iterate_body i st !! k = newton_step sum prod_sum prod <$> st !! k.
Proof.
  rewrite Nat.div_1_r. intros ->. unfold iterate_body.
  destruct (st !! linear w i) as [x|] eqn:Hx; [|by rewrite Hx].
  apply list_lookup_insert_eq. by eapply lookup_lt_Some.
Qed.

Lemma iterate_body_length (i : item) (st : list complex) :
  length (iterate_body i st) = length st.
Proof.
  unfold iterate_body. destruct (st !! linear w i); [|done].
  apply length_insert.
Qed.

Lemma classify_body_other (i : item) (st : list Z) (k : nat) :
  (k `div` 4)%nat ≠ linear w i → classify_body i st !! k = st !! k.
Proof.
  intros Hk. unfold classify_body.
  destruct (vec0 !! linear w i) as [y|]; [|done].
  apply list_lookup_insert_ne. intros <-. apply Hk.
  pose proof (channel_lt a b c y). apply block_of_cell. lia.
Qed.

Lemma classify_body_own (i : item) (st : list Z) (k : nat) :
  (k `div` 4)%nat = linear w i →
  classify_body i st !! k
  = match vec0 !! linear w i with
    | Some x =>
        if decide (k = linear w i * 4 + channel a b c x)%nat
        then (λ _, FILL_INTENSITY) <$> st !! k else st !! k
    | None => st !! k
    end.
Proof.
  intros Hk. unfold classify_body.
  destruct (vec0 !! linear w i) as [y|]; [|done].
  case_decide as Hd.
  - subst k. destruct (st !! _) as [z|] eqn:Hz.
    + apply list_lookup_insert_eq. by eapply lookup_lt_Some.
    + cbn. rewrite list_insert_ge; [done|]. by apply lookup_ge_None.
  - by apply list_lookup_insert_ne.
Qed.

Lemma classify_body_length (i : item) (st : list Z) :
  length (classify_body i st) = length st.
Proof.
  unfold classify_body. destruct (vec0 !! linear w i); [|done].
  apply length_insert.
Qed.

(** X1.  The three submissions give the same buffers whatever the order in
    which the work items run: every permutation of the index space is as
    good as the row-major one. *)
Theorem passes_independent_of_schedule (its : list item)
    (vec : list complex) (out : list Z) :
  its ≡ₚ num_items h w →
  parallel_for its (λ i vec, <[linear w i := seed unit left top i]> vec) vec
  = seed_pass w h unit left top vec
  ∧ parallel_for its
      (λ i vec,
         match vec !! linear w i with
         | Some x => <[linear w i := newton_step sum prod_sum prod x]> vec
         | None => vec
         end) vec
    = iterate_pass w h sum prod_sum prod vec
  ∧ parallel_for its
      (λ i out,
         match vec0 !! linear w i with
         | Some x =>
             let index := (linear w i * 4)%nat in
             <[(index + channel a b c x)%nat := FILL_INTENSITY]> out
         | None => out
         end) out
    = classify_pass a b c w h vec0 out.
Proof.
  intros Hperm.
  assert (Hnd : NoDup (linear w <$> its)).
  { rewrite Hperm. apply NoDup_linear_num_items. }
  split; [|split].
  - exact (parallel_for_schedule w 1 seed_body
             (λ i _ o, (λ _, seed unit left top i) <$> o)
             seed_body_other seed_body_own its (num_items h w) vec Hperm Hnd).
  - exact (parallel_for_schedule w 1 iterate_body
             (λ _ _ o, newton_step sum prod_sum prod <$> o)
             iterate_body_other iterate_body_own its (num_items h w) vec Hperm Hnd).
  - exact (parallel_for_schedule w 4 classify_body
             (λ i k o,
                match vec0 !! linear w i with
                | Some x =>
                    if decide (k = linear w i * 4 + channel a b c x)%nat
                    then (λ _, FILL_INTENSITY) <$> o else o
                | None => o
                end)
             classify_body_other classify_body_own its (num_items h w) out Hperm Hnd).
Qed.
End Bodies.

Lemma passes_independent_of_schedule_witness :
  parallel_for [(0, 1); (1, 0); (1, 1); (0, 0)]%nat
    (λ i vec, <[linear 2 i := seed (F64.of_int 1) (F64.of_int 0) (F64.of_int 0) i]> vec)
    (replicate 5 (complex_of_ints 7 7))
  = seed_pass 2 2 (F64.of_int 1) (F64.of_int 0) (F64.of_int 0)
      (replicate 5 (complex_of_ints 7 7)).
Proof.
  refine (proj1 (passes_independent_of_schedule (CL := textbook_complex)
            (complex_of_ints 0 0) (complex_of_ints 0 0) (complex_of_ints 0 0)
            2 2 (F64.of_int 1) (F64.of_int 0) (F64.of_int 0)
            (complex_of_ints 0 0) (complex_of_ints 0 0) (complex_of_ints 0 0)
            [] [(0, 1); (1, 0); (1, 1); (0, 0)]%nat
            (replicate 5 (complex_of_ints 7 7)) [] _)).
  cbn. symmetry.
  exact (Permutation_cons_append [(0, 1); (1, 0); (1, 1)]%nat (0, 0)%nat).
Defined.

Section NewtonBounds.
Context {CL : ComplexLib}.
Variables (a b c : complex).
Variables (w h : nat) (unit left top : double).

Lemma not_elem_of_linear_num_items (k : nat) :
  (h * w ≤ k)%nat → k ∉ linear w <$> num_items h w.
Proof. rewrite linear_num_items, elem_of_seq. lia. Qed.

Lemma seed_pass_length (vec : list complex) :
  length (seed_pass w h unit left top vec) = length vec.
Proof.
  unfold seed_pass. apply parallel_for_length. intros i st. apply length_insert.
Qed.

Lemma seed_pass_outside (vec : list complex) (k : nat) :
  (h * w ≤ k)%nat → seed_pass w h unit left top vec !! k = vec !! k.
Proof.
  intros Hk. unfold seed_pass.
  apply (parallel_for_other w 1 _ (seed_body_other w unit left top)).
  rewrite Nat.div_1_r. by apply not_elem_of_linear_num_items.
Qed.

Lemma iterate_pass_length (sum prod_sum prod : complex) (vec : list complex) :
  length (iterate_pass w h sum prod_sum prod vec) = length vec.
Proof.
  unfold iterate_pass. apply parallel_for_length.
  apply iterate_body_length.
Qed.

Lemma iterate_pass_outside (sum prod_sum prod : complex) (vec : list complex)
    (k : nat) :
  (h * w ≤ k)%nat → iterate_pass w h sum prod_sum prod vec !! k = vec !! k.
Proof.
  intros Hk. unfold iterate_pass.
  apply (parallel_for_other w 1 _ (iterate_body_other w sum prod_sum prod)).
  rewrite Nat.div_1_r. by apply not_elem_of_linear_num_items.
Qed.

Lemma iterate_loop_length (sum prod_sum prod : complex) (n : nat)
    (vec : list complex) :
  length (Nat.iter n (iterate_pass w h sum prod_sum prod) vec) = length vec.
Proof.
  induction n as [|n IH]; [done|].
  by rewrite Nat.iter_succ, iterate_pass_length.
Qed.

Lemma iterate_loop_outside (sum prod_sum prod : complex) (n : nat)
    (vec : list complex) (k : nat) :
  (h * w ≤ k)%nat →
  Nat.iter n (iterate_pass w h sum prod_sum prod) vec !! k = vec !! k.
Proof.
  intros Hk. induction n as [|n IH]; [done|].
  by rewrite Nat.iter_succ, iterate_pass_outside.
Qed.

Lemma classify_pass_length (vec : list complex) (out : list Z) :
  length (classify_pass a b c w h vec out) = length out.
Proof.
  unfold classify_pass. apply parallel_for_length.
  apply classify_body_length.
Qed.

Lemma classify_pass_outside (vec : list complex) (out : list Z) (k : nat) :
  (h * w * 4 ≤ k)%nat → classify_pass a b c w h vec out !! k = out !! k.
Proof.
  intros Hk. unfold classify_pass.
  apply (parallel_for_other w 4 _ (classify_body_other a b c w vec)).
  apply not_elem_of_linear_num_items.
  apply Nat.div_le_lower_bound; lia.
Qed.

Lemma newton_bounds (buf : list complex) (out : list Z) (iterations : nat) :
  let r := newton a b c w h unit left top buf out iterations in
  length r.1 = length buf ∧ length r.2 = length out
  ∧ (∀ k, (h * w ≤ k)%nat → r.1 !! k = buf !! k)
  ∧ (∀ k, (h * w * 4 ≤ k)%nat → (k < length out)%nat → r.2 !! k = Some 0).
Proof.
  unfold newton. cbn [fst snd]. repeat split.
  - by rewrite iterate_loop_length, seed_pass_length.
  - by rewrite classify_pass_length, length_replicate.
  - intros k Hk. by rewrite iterate_loop_outside, seed_pass_outside.
  - intros k Hk Hlen. rewrite classify_pass_outside by done.
    by apply lookup_replicate_2.
Qed.

(** X2.  [newton] keeps the sizes of both buffers, leaves every cell of the
    work buffer past the first [h * w] as it was, and leaves every byte of
    the pixel buffer past the first [h * w * 4] at 0: it never writes outside
    the image, whatever the roots and the iterates are. *)
Theorem newton_writes_within_bounds (buf : list complex) (out : list Z)
    (iterations : nat) :
  let r := newton a b c w h unit left top buf out iterations in
  length r.1 = length buf ∧ length r.2 = length out
  ∧ (∀ k, (h * w ≤ k)%nat → r.1 !! k = buf !! k)
  ∧ (∀ k, (h * w * 4 ≤ k)%nat → (k < length out)%nat → r.2 !! k = Some 0).
Proof.
  unfold newton. cbn [fst snd]. split; [|split; [|split]].
  - rewrite iterate_loop_length. apply seed_pass_length.
  - rewrite classify_pass_length. apply length_replicate.
  - intros k Hk. rewrite iterate_loop_outside by done.
    by apply seed_pass_outside.
  - intros k Hk Hlen. rewrite classify_pass_outside by done.
    by apply lookup_replicate_2.
Qed.
End NewtonBounds.

Section NewtonStale.
Context {CL : ComplexLib}.
Variables (a b c : complex).
Variables (w h : nat) (unit left top : double).

Lemma item_of_byte (k : nat) :
  (k < h * w * 4)%nat →
  let i : item := ((k `div` 4) `div` w, (k `div` 4) `mod` w)%nat in
  (i.1 < h)%nat ∧ (i.2 < w)%nat
  ∧ k = (linear w i * 4 + k `mod` 4)%nat ∧ (k `mod` 4 < 4)%nat.
Proof.
  intros Hk. cbn zeta. unfold linear. cbn [fst snd].
  assert (Hw : (0 < w)%nat) by nia.
  assert (Hq : (k `div` 4 < h * w)%nat) by (apply Nat.Div0.div_lt_upper_bound; lia).
  split; [apply Nat.Div0.div_lt_upper_bound; lia|].
  split; [apply Nat.mod_upper_bound; lia|].
  split; [|apply Nat.mod_upper_bound; lia].
  pose proof (Nat.div_mod_eq (k `div` 4) w).
  pose proof (Nat.div_mod_eq k 4). lia.
Qed.

Lemma newton_out_lookup (buf : list complex) (out : list Z) (iterations : nat)
    (i : item) (j : nat) :
  (i.1 < h)%nat → (i.2 < w)%nat → (j < 4)%nat →
  (h * w ≤ length buf)%nat → (h * w * 4 ≤ length out)%nat →
  (newton a b c w h unit left top buf out iterations).2 !! (linear w i * 4 + j)%nat
  = Some (if decide (j = channel a b c
                         (final_iterate a b c unit left top iterations i))
          then FILL_INTENSITY else 0).
Proof.
  intros Hr Hc Hj Hbuf Hout.
  pose proof (newton_work_buffer a b c w h unit left top buf out iterations
                i Hr Hc Hbuf) as Hx.
  unfold newton in *. cbn [fst snd] in *.
  assert (Hi : i ∈ num_items h w) by (by apply elem_of_num_items).
  pose proof (linear_lt h w i Hr Hc) as Hlt.
  rewrite (classify_pass_lookup _ _ _ _ _ _ _ _ _ _ Hi Hx Hj).
  rewrite lookup_replicate_2 by lia. by case_decide.
Qed.

Lemma newton_out_stale (buf buf' : list complex) (out out' : list Z)
    (iterations : nat) :
  (h * w ≤ length buf)%nat → (h * w ≤ length buf')%nat →
  (h * w * 4 ≤ length out)%nat → length out' = length out →
  (newton a b c w h unit left top buf out iterations).2
  = (newton a b c w h unit left top buf' out' iterations).2.
Proof.
  intros Hbuf Hbuf' Hout Hlen.
  apply list_eq. intros k.
  destruct (decide (k < h * w * 4)%nat) as [Hk|Hk].
  - destruct (item_of_byte k Hk) as (Hr & Hc & Heq & Hj).
    rewrite Heq. rewrite !newton_out_lookup by (done || lia). done.
  - pose proof (newton_bounds a b c w h unit left top
                  buf out iterations) as (_ & Hl & _ & Hz).
    pose proof (newton_bounds a b c w h unit left top
                  buf' out' iterations) as (_ & Hl' & _ & Hz').
    destruct (decide (k < length out)%nat) as [Hin|Hin].
    + rewrite Hz, Hz' by lia. done.
    + rewrite !(proj2 (lookup_ge_None _ _)) by lia. done.
Qed.

(** X3.  What [newton] leaves in the pixel buffer, and in the first [h * w]
    cells of the work buffer, does not depend on what the two buffers held
    before the call: the picture of a frame owes nothing to the previous
    frame. *)
Theorem newton_forgets_old_buffers (buf buf' : list complex) (out out' : list Z)
    (iterations : nat) :
  (h * w ≤ length buf)%nat → (h * w ≤ length buf')%nat →
  (h * w * 4 ≤ length out)%nat → length out' = length out →
  (newton a b c w h unit left top buf out iterations).2
  = (newton a b c w h unit left top buf' out' iterations).2
  ∧ take (h * w) (newton a b c w h unit left top buf out iterations).1
    = take (h * w) (newton a b c w h unit left top buf' out' iterations).1.
Proof.
  intros Hbuf Hbuf' Hout Hlen. split; [by apply newton_out_stale|].
  apply list_eq. intros k.
  destruct (decide (k < h * w)%nat) as [Hk|Hk].
  - rewrite !lookup_take_lt by done.
    assert (Hw : (0 < w)%nat) by nia.
    set (i := ((k `div` w)%nat, (k `mod` w)%nat) : item).
    assert (Hi : k = linear w i).
    { unfold linear, i. cbn [fst snd]. pose proof (Nat.div_mod_eq k w). lia. }
    assert (Hr : (i.1 < h)%nat).
    { unfold i. cbn [fst]. apply Nat.Div0.div_lt_upper_bound. lia. }
    assert (Hc : (i.2 < w)%nat).
    { unfold i. cbn [snd]. apply Nat.mod_upper_bound. lia. }
    rewrite Hi, !newton_work_buffer by done. done.
  - rewrite !lookup_take_ge by lia. done.
Qed.
End NewtonStale.

Lemma newton_forgets_old_buffers_witness :
  (newton (CL := textbook_complex)
     (complex_of_ints (-2) 1) (complex_of_ints 2 2) (complex_of_ints (-1) (-2))
     2 1 (F64.of_int 1) (F64.of_int (-2)) (F64.of_int 2)
     (replicate 2 (complex_of_ints 0 0)) (replicate 8 9) 3%nat).2
  = (newton (CL := textbook_complex)
       (complex_of_ints (-2) 1) (complex_of_ints 2 2) (complex_of_ints (-1) (-2))
       2 1 (F64.of_int 1) (F64.of_int (-2)) (F64.of_int 2)
       (replicate 3 (complex_of_ints 5 5)) (replicate 8 1) 3%nat).2.
Proof.
  refine (proj1 (newton_forgets_old_buffers (CL := textbook_complex)
            _ _ _ 2 1 _ _ _ (replicate 2 (complex_of_ints 0 0))
            (replicate 3 (complex_of_ints 5 5)) (replicate 8 9) (replicate 8 1)
            3%nat _ _ _ _)); cbn; lia.
Defined.

(** ** The classification: nearest root, ties, infinite iterates *)

Lemma SFcompare_swap (x y : spec_float) :
  SFcompare y x = CompOpp <$> SFcompare x y.
Proof.
  destruct x as [[]|[]| |[] mx ex], y as [[]|[]| |[] my ey]; cbn; try done;
    rewrite (Z.compare_antisym ex ey);
    destruct (ex ?= ey); cbn; try done;
    rewrite (Pos.compare_cont_antisym mx my Eq); cbn;
    by rewrite ?CompOpp_involutive.
Qed.

(** On numbers, [<=] is total. *)
Lemma SFleb_total (x y : spec_float) :
  is_nan x = false → is_nan y = false → SFleb x y = false → SFltb y x = true.
Proof.
  intros Hx Hy. unfold SFleb, SFltb. rewrite (SFcompare_swap x y).
  destruct (SFcompare x y) as [[]|] eqn:Hc; cbn; try done.
  by destruct x as [[]|[]| |[] mx ex], y as [[]|[]| |[] my ey].
Qed.

Lemma SFltb_SFleb (x y : spec_float) : SFltb x y = true → SFleb x y = true.
Proof. unfold SFltb, SFleb. by destruct (SFcompare x y) as [[]|]. Qed.

Lemma SFleb_not_SFltb (x y : spec_float) :
  SFleb x y = true → SFltb x y = false → SFleb y x = true.
Proof.
  unfold SFleb, SFltb. rewrite (SFcompare_swap x y).
  by destruct (SFcompare x y) as [[]|].
Qed.

Ltac compare_cases :=
  repeat match goal with
    | H : context [Z.compare ?x ?y] |- _ => destruct (Z.compare_spec x y)
    | |- context [Z.compare ?x ?y] => destruct (Z.compare_spec x y)
    | H : context [Pos.compare_cont Eq ?x ?y] |- _ =>
        change (Pos.compare_cont Eq x y) with (Pos.compare x y) in H;
        destruct (Pos.compare_spec x y)
    | |- context [Pos.compare_cont Eq ?x ?y] =>
        change (Pos.compare_cont Eq x y) with (Pos.compare x y);
        destruct (Pos.compare_spec x y)
    end.

Lemma SFleb_trans (x y z : spec_float) :
  SFleb x y = true → SFleb y z = true → SFleb x z = true.
Proof.
  unfold SFleb.
  destruct x as [[]|[]| |[] mx ex], y as [[]|[]| |[] my ey],
    z as [[]|[]| |[] mz ez]; cbn; try done;
    intros Hxy Hyz; compare_cases; cbn in *; try done; lia.
Qed.

(** X4.  When the three squared distances are numbers, the classification
    picks a root of least squared distance and, among equal distances, the
    first in the order [a], [b], [c]: channel 0 means [a] is at most as far as
    [b] and [c]; channel 1 means [b] is strictly nearer than [a] and at most
    as far as [c]; channel 2 means [c] is strictly nearer than both. *)
Theorem channel_is_nearest_root_first_wins (a b c x : complex) :
  is_nan (hyp x a) = false → is_nan (hyp x b) = false →
  is_nan (hyp x c) = false →
  (channel a b c x = 0%nat →
   F64.leb (hyp x a) (hyp x b) = true ∧ F64.leb (hyp x a) (hyp x c) = true)
  ∧ (channel a b c x = 1%nat →
     F64.ltb (hyp x b) (hyp x a) = true ∧ F64.leb (hyp x b) (hyp x c) = true)
  ∧ (channel a b c x = 2%nat →
     F64.ltb (hyp x c) (hyp x a) = true ∧ F64.ltb (hyp x c) (hyp x b) = true).
Proof.
  intros Ha Hb Hc. unfold channel, F64.leb, F64.ltb.
  set (da := hyp x a) in *. set (db := hyp x b) in *. set (dc := hyp x c) in *.
  destruct (SFleb da db && SFleb da dc) eqn:H1.
  { apply andb_true_iff in H1 as [Hab Hac].
    split; [done|]. split; intros; discriminate. }
  destruct (SFleb db da && SFleb db dc) eqn:H2.
  { apply andb_true_iff in H2 as [Hba Hbc].
    split; [discriminate|]. split; [|discriminate]. intros _. split; [|done].
    destruct (SFltb db da) eqn:Hlt; [done|]. exfalso.
    pose proof (SFleb_not_SFltb db da Hba Hlt) as Hab.
    rewrite Hab, (SFleb_trans da db dc Hab Hbc) in H1. discriminate H1. }
  split; [discriminate|]. split; [discriminate|]. intros _. split.
  - apply SFleb_total; [done..|].
    destruct (SFleb da dc) eqn:Hac; [|done]. exfalso.
    rewrite andb_true_r in H1.
    pose proof (SFltb_SFleb _ _ (SFleb_total _ _ Ha Hb H1)) as Hba.
    rewrite Hba, (SFleb_trans db da dc Hba Hac) in H2. discriminate H2.
  - apply SFleb_total; [done..|].
    destruct (SFleb db dc) eqn:Hbc; [|done]. exfalso.
    rewrite andb_true_r in H2.
    pose proof (SFltb_SFleb _ _ (SFleb_total _ _ Hb Ha H2)) as Hab.
    rewrite Hab, (SFleb_trans da db dc Hab Hbc) in H1. discriminate H1.
Qed.

Lemma channel_is_nearest_root_first_wins_witness :
  F64.ltb (hyp (complex_of_ints 3 1) (complex_of_ints 2 2))
    (hyp (complex_of_ints 3 1) (complex_of_ints (-2) 1)) = true
  ∧ F64.leb (hyp (complex_of_ints 3 1) (complex_of_ints 2 2))
      (hyp (complex_of_ints 3 1) (complex_of_ints (-1) (-2))) = true.
Proof.
  exact (proj1 (proj2 (channel_is_nearest_root_first_wins
           (complex_of_ints (-2) 1) (complex_of_ints 2 2)
           (complex_of_ints (-1) (-2)) (complex_of_ints 3 1)
           eq_refl eq_refl eq_refl)) eq_refl).
Defined.

Lemma iter_pos_invariant {A : Type} (P : A → Prop) (f : A → A) :
  (∀ x, P x → P (f x)) → ∀ p x, P x → P (SpecFloat.iter_pos f p x).
Proof.
  intros Hf. induction p as [p IH|p IH|]; intros x Hx; cbn; auto.
Qed.

Lemma shr_1_nonneg (mrs : shr_record) : 0 ≤ shr_m mrs → 0 ≤ shr_m (shr_1 mrs).
Proof. destruct mrs as [[|[p|p|]|p] r s]; cbn; lia. Qed.

Lemma shr_fexp_nonneg (prec emax m e : Z) (l : location) :
  0 ≤ m → 0 ≤ shr_m (shr_fexp prec emax m e l).1.
Proof.
  intros Hm. unfold shr_fexp, shr.
  assert (H0 : 0 ≤ shr_m (shr_record_of_loc m l)) by (by destruct l as [|[]]).
  destruct (fexp prec emax (Zdigits2 m + e) - e); cbn [fst]; try done.
  apply (iter_pos_invariant (λ mrs, 0 ≤ shr_m mrs)); [|exact H0].
  apply shr_1_nonneg.
Qed.

Lemma round_nearest_even_nonneg (m : Z) (l : location) :
  0 ≤ m → 0 ≤ round_nearest_even m l.
Proof. intros Hm. destruct l as [|[]]; cbn; try done; [case_match|]; lia. Qed.

(** Rounding a non-negative mantissa never gives a NaN, and gives the sign
    asked for. *)
Lemma binary_round_aux_signed (prec emax : Z) (s : bool) (m e : Z) (l : location) :
  0 ≤ m → signed_number s (binary_round_aux prec emax s m e l).
Proof.
  intros Hm. unfold binary_round_aux.
  pose proof (shr_fexp_nonneg prec emax m e l Hm) as H1.
  destruct (shr_fexp prec emax m e l) as [mrs' e']. cbn [fst] in H1.
  pose proof (shr_fexp_nonneg prec emax _ e' loc_Exact
                (round_nearest_even_nonneg _ (loc_of_shr_record mrs') H1)) as H2.
  destruct (shr_fexp prec emax _ e' loc_Exact) as [mrs'' e'']. cbn [fst] in H2.
  destruct (shr_m mrs''); [done| |lia]. by case_match.
Qed.

Lemma binary_round_signed (prec emax : Z) (s : bool) (m : positive) (e : Z) :
  signed_number s (binary_round prec emax s m e).
Proof.
  unfold binary_round. destruct (shl_align _ _ _) as [mz ez].
  by apply binary_round_aux_signed.
Qed.

(** The square of a number is a non-negative number; that of an infinity is
    [+inf]. *)
Lemma SFmul_square (prec emax : Z) (d : spec_float) :
  is_nan d = false →
  signed_number false (SFmul prec emax d d)
  ∧ (is_infinite d = true → SFmul prec emax d d = S754_infinity false).
Proof.
  intros Hd. destruct d as [s|s| |s m e]; try done; cbn.
  - by destruct s.
  - by destruct s.
  - split; [|done]. rewrite xorb_nilpotent. by apply binary_round_aux_signed.
Qed.

(** The difference of a number and a finite number is a number, and is
    infinite when the first one is. *)
Lemma SFsub_finite (prec emax : Z) (x r : spec_float) :
  is_nan x = false → is_finite r = true →
  is_nan (SFsub prec emax x r) = false
  ∧ (is_infinite x = true → is_infinite (SFsub prec emax x r) = true).
Proof.
  intros Hx Hr.
  destruct x as [sx|sx| |sx mx ex], r as [sr|sr| |sr mr er]; try done; cbn.
  - by destruct sx, sr.
  - split; [|done]. unfold binary_normalize.
    destruct (_ - _) as [|p|p]; [done|..].
    + pose proof (binary_round_signed prec emax false p (Z.min ex er)) as Hs.
      by destruct (binary_round _ _ _ _ _).
    + pose proof (binary_round_signed prec emax true p (Z.min ex er)) as Hs.
      by destruct (binary_round _ _ _ _ _).
Qed.

Lemma SFadd_pinf_l (prec emax : Z) (y : spec_float) :
  signed_number false y →
  SFadd prec emax (S754_infinity false) y = S754_infinity false.
Proof. destruct y as [s|s| |s m e]; cbn; try done. by intros ->. Qed.

Lemma SFadd_pinf_r (prec emax : Z) (y : spec_float) :
  signed_number false y →
  SFadd prec emax y (S754_infinity false) = S754_infinity false.
Proof. destruct y as [s|s| |s m e]; cbn; try done. by intros ->. Qed.

Lemma hyp_infinite (x r : complex) :
  is_nan (real x) = false → is_nan (imag x) = false →
  is_infinite (real x) || is_infinite (imag x) = true →
  finite_complex r = true →
  hyp x r = S754_infinity false.
Proof.
  intros Hxr Hxi Hinf Hr. apply andb_true_iff in Hr as [Hrr Hri].
  unfold hyp, csub. cbn [real imag].
  destruct (SFsub_finite F32.prec F32.emax _ _ Hxr Hrr) as [Hnr Hir].
  destruct (SFsub_finite F32.prec F32.emax _ _ Hxi Hri) as [Hni Hii].
  destruct (SFmul_square F32.prec F32.emax _ Hnr) as [Hsr Hmr].
  destruct (SFmul_square F32.prec F32.emax _ Hni) as [Hsi Hmi].
  unfold F32.add, F32.mul, F32.sub.
  apply orb_true_iff in Hinf as [Hinf|Hinf].
  - rewrite (Hmr (Hir Hinf)), SFadd_pinf_l by done. reflexivity.
  - rewrite (Hmi (Hii Hinf)), SFadd_pinf_r by done. reflexivity.
Qed.

(** X5.  An iterate that has an infinite component and no NaN component is
    at squared distance [+inf] from every finite root, all the [<=] tests
    hold, and the pixel gets channel 0, the channel of root [a]: infinite
    iterates are coloured as [a], while NaN iterates are coloured as [c]. *)
Theorem infinite_iterate_colours_channel_0 (a b c x : complex) :
  is_nan (real x) = false → is_nan (imag x) = false →
  is_infinite (real x) || is_infinite (imag x) = true →
  finite_complex a = true → finite_complex b = true → finite_complex c = true →
  hyp x a = S754_infinity false ∧ hyp x b = S754_infinity false
  ∧ hyp x c = S754_infinity false ∧ channel a b c x = 0%nat.
Proof.
  intros Hxr Hxi Hinf Ha Hb Hc.
  pose proof (hyp_infinite x a Hxr Hxi Hinf Ha) as Hda.
  pose proof (hyp_infinite x b Hxr Hxi Hinf Hb) as Hdb.
  pose proof (hyp_infinite x c Hxr Hxi Hinf Hc) as Hdc.
  repeat split; try done. unfold channel. by rewrite Hda, Hdb, Hdc.
Qed.

Lemma infinite_iterate_colours_channel_0_witness :
  channel (complex_of_ints (-2) 1) (complex_of_ints 2 2) (complex_of_ints (-1) (-2))
    (Complex (S754_infinity true) (F32.of_int 3)) = 0%nat.
Proof.
  apply (infinite_iterate_colours_channel_0
           (complex_of_ints (-2) 1) (complex_of_ints 2 2)
           (complex_of_ints (-1) (-2))
           (Complex (S754_infinity true) (F32.of_int 3))); reflexivity.
Defined.

(** ** The [changed] flag, the picture and the markers *)

Section Dirty.
Context {CL : ComplexLib} {ML : MathLib}.

(** No event touches the buffers or the markers. *)
Lemma handle_event_buffers (s : state) (e : event) :
  pixels (handle_event s e) = pixels s ∧ buffer (handle_event s e) = buffer s
  ∧ roots0 (handle_event s e) = roots0 s ∧ roots1 (handle_event s e) = roots1 s
  ∧ roots2 (handle_event s e) = roots2 s.
Proof. event_cases e; done. Qed.

Lemma handle_keys_buffers (s : state) (k : keyboard) :
  pixels (handle_keys s k) = pixels s ∧ buffer (handle_keys s k) = buffer s
  ∧ roots0 (handle_keys s k) = roots0 s ∧ roots1 (handle_keys s k) = roots1 s
  ∧ roots2 (handle_keys s k) = roots2 s.
Proof. keys_cases; done. Qed.

(** An event never clears [changed], and sets it whenever it changes the
    view. *)
Lemma handle_event_changed (s : state) (e : event) :
  (changed s = true → changed (handle_event s e) = true)
  ∧ (changed (handle_event s e) = false → view (handle_event s e) = view s).
Proof. unfold view. event_cases e; done. Qed.

Lemma handle_keys_changed (s : state) (k : keyboard) :
  (changed s = true → changed (handle_keys s k) = true)
  ∧ (changed (handle_keys s k) = false → view (handle_keys s k) = view s).
Proof. unfold view. keys_cases; done. Qed.

Lemma events_buffers (es : list event) (s : state) :
  pixels (foldl handle_event s es) = pixels s
  ∧ buffer (foldl handle_event s es) = buffer s
  ∧ roots0 (foldl handle_event s es) = roots0 s
  ∧ roots1 (foldl handle_event s es) = roots1 s
  ∧ roots2 (foldl handle_event s es) = roots2 s.
Proof.
  revert s. induction es as [|e es IH]; intros s; [done|]. cbn [foldl].
  destruct (IH (handle_event s e)) as (-> & -> & -> & -> & ->).
  apply handle_event_buffers.
Qed.

Lemma events_changed (es : list event) (s : state) :
  (changed s = true → changed (foldl handle_event s es) = true)
  ∧ (changed (foldl handle_event s es) = false →
     view (foldl handle_event s es) = view s).
Proof.
  revert s. induction es as [|e es IH]; intros s; [done|]. cbn [foldl].
  destruct (IH (handle_event s e)) as [Hset Hclean].
  destruct (handle_event_changed s e) as [Hset' Hclean'].
  split; [auto|]. intros Hc. rewrite Hclean by done. apply Hclean'.
  destruct (changed (handle_event s e)) eqn:Hce; [|done].
  by rewrite Hset in Hc.
Qed.
End Dirty.

Section UpToDate.
Context {CL : ComplexLib} {ML : MathLib}.

Lemma image_fits :
  (Z.to_nat HEIGHT * Z.to_nat WIDTH * 4 = Z.to_nat buffer_size)%nat.
Proof. unfold buffer_size, HEIGHT, WIDTH. lia. Qed.

Lemma render_fields (s : state) :
  pixels (render s)
  = (newton (a s) (b s) (c s) (Z.to_nat WIDTH) (Z.to_nat HEIGHT)
       (F64.div (unit_width s) (F64.of_int WIDTH)) (left s) (top s)
       (buffer s) (pixels s) (Z.to_nat (iteration_count s))).2
  ∧ buffer (render s)
    = (newton (a s) (b s) (c s) (Z.to_nat WIDTH) (Z.to_nat HEIGHT)
         (F64.div (unit_width s) (F64.of_int WIDTH)) (left s) (top s)
         (buffer s) (pixels s) (Z.to_nat (iteration_count s))).1
  ∧ view (render s) = view s ∧ changed (render s) = false
  ∧ roots0 (render s) = marker (a s) s ∧ roots1 (render s) = marker (b s) s
  ∧ roots2 (render s) = marker (c s) s.
Proof. repeat split; reflexivity. Qed.

Lemma view_picture (s s' : state) :
  view s' = view s →
  picture s' = picture s
  ∧ ∀ r, marker r s' = marker r s.
Proof.
  unfold view, picture, marker. intros Hv. injection Hv as -> -> -> -> -> -> -> ->.
  done.
Qed.

Lemma render_allocated (s : state) : allocated s → allocated (render s).
Proof.
  intros [Hp Hb]. unfold allocated.
  destruct (render_fields s) as (-> & -> & _).
  pose proof (newton_bounds (a s) (b s) (c s) (Z.to_nat WIDTH)
                (Z.to_nat HEIGHT) (F64.div (unit_width s) (F64.of_int WIDTH))
                (left s) (top s) (buffer s) (pixels s)
                (Z.to_nat (iteration_count s))) as (Hl1 & Hl2 & _).
  split; congruence.
Qed.

Lemma render_up_to_date (s : state) : allocated s → up_to_date (render s).
Proof.
  intros [Hp Hb].
  destruct (render_fields s) as (Hpix & _ & Hview & _ & Hr0 & Hr1 & Hr2).
  destruct (view_picture s (render s) Hview) as [Hpic Hm].
  assert (Ha : a (render s) = a s ∧ b (render s) = b s ∧ c (render s) = c s).
  { repeat split; reflexivity. }
  destruct Ha as (Ha & Hb' & Hc).
  pose proof image_fits as Hfit.
  unfold up_to_date. rewrite Hpic, Hr0, Hr1, Hr2, !Hm, Ha, Hb', Hc.
  split; [|repeat split; reflexivity]. rewrite Hpix. unfold picture.
  apply newton_out_stale; rewrite ?length_replicate; lia.
Qed.

Lemma frame_step (s : state) (f : list event * keyboard) :
  allocated s → changed s = true ∨ up_to_date s →
  changed (frame s f) = false ∧ up_to_date (frame s f) ∧ allocated (frame s f).
Proof.
  intros Hal Hs. unfold frame.
  set (s1 := foldl handle_event s f.1).
  set (s2 := handle_keys s1 f.2).
  destruct (events_buffers f.1 s) as (Hp1 & Hb1 & Hr10 & Hr11 & Hr12).
  destruct (handle_keys_buffers s1 f.2) as (Hp2 & Hb2 & Hr20 & Hr21 & Hr22).
  fold s1 in Hp1, Hb1, Hr10, Hr11, Hr12. fold s2 in Hp2, Hb2, Hr20, Hr21, Hr22.
  assert (Hal2 : allocated s2).
  { destruct Hal as [Hp Hb]. split; congruence. }
  destruct (changed s2) eqn:Hc2.
  - split; [reflexivity|].
    split; [apply render_up_to_date, Hal2|apply render_allocated, Hal2].
  - split; [exact Hc2|]. split; [|exact Hal2].
    destruct (handle_keys_changed s1 f.2) as [Hk1 Hk2]. fold s2 in Hk1, Hk2.
    destruct (events_changed f.1 s) as [He1 He2]. fold s1 in He1, He2.
    assert (Hc1 : changed s1 = false).
    { destruct (changed s1); [|reflexivity]. rewrite Hk1 in Hc2; congruence. }
    assert (Hc0 : changed s = false).
    { destruct (changed s); [|reflexivity]. rewrite He1 in Hc1; congruence. }
    destruct Hs as [Hs|Hs]; [congruence|].
    assert (Hv : view s2 = view s).
    { rewrite Hk2, He2 by assumption. reflexivity. }
    destruct (view_picture s s2 Hv) as [Hpic Hm].
    destruct Hs as (Hpix & H0 & H1 & H2).
    assert (Ha : a s2 = a s ∧ b s2 = b s ∧ c s2 = c s).
    { unfold view in Hv. injection Hv as -> -> -> _ _ _ _ _.
      repeat split; reflexivity. }
    destruct Ha as (Ha & Hb' & Hc).
    unfold up_to_date.
    rewrite Hpic, !Hm, Ha, Hb', Hc, Hp2, Hp1, Hr20, Hr21, Hr22, Hr10, Hr11, Hr12.
    exact (conj Hpix (conj H0 (conj H1 H2))).
Qed.

Lemma init_allocated : allocated init.
Proof. split; apply length_replicate. Qed.

Lemma frames_up_to_date (fs : list (list event * keyboard)) (s : state) :
  allocated s → changed s = false → up_to_date s →
  changed (foldl frame s fs) = false ∧ up_to_date (foldl frame s fs)
  ∧ allocated (foldl frame s fs).
Proof.
  revert s. induction fs as [|f fs IH]; intros s Hal Hc Hu.
  - cbn [foldl]. exact (conj Hc (conj Hu Hal)).
  - cbn [foldl]. destruct (frame_step s f Hal (or_intror Hu)) as (? & ? & ?).
    apply IH; assumption.
Qed.

Lemma frames_end_state (f : list event * keyboard)
    (fs : list (list event * keyboard)) :
  let s := foldl frame (frame init f) fs in
  changed s = false ∧ up_to_date s ∧ allocated s.
Proof.
  cbn zeta.
  destruct (frame_step init f init_allocated (or_introl eq_refl)) as (Hc & Hu & Hal).
  exact (frames_up_to_date fs _ Hal Hc Hu).
Qed.

(** X6.  At the end of every turn of the frame loop (the first one included,
    which always renders) [changed] is false and the pixel buffer and the
    three markers are those of the current roots, viewport and iteration
    count: the loop skips the rendering only when it would reproduce the
    picture and the markers it already has. *)
Theorem frame_loop_keeps_picture_up_to_date (f : list event * keyboard)
    (fs : list (list event * keyboard)) :
  let s := foldl frame (frame init f) fs in
  changed s = false
  ∧ pixels s = picture s
  ∧ roots0 s = marker (a s) s ∧ roots1 s = marker (b s) s
  ∧ roots2 s = marker (c s) s
  ∧ pixels (render s) = pixels s.
Proof.
  cbn zeta.
  destruct (frames_end_state f fs) as (Hc' & Hu' & Hal').
  split; [exact Hc'|]. destruct Hu' as (Hp & H0 & H1 & H2).
  split; [exact Hp|]. split; [exact H0|]. split; [exact H1|]. split; [exact H2|].
  destruct (render_up_to_date _ Hal') as (Hp' & _).
  destruct (render_fields (foldl frame (frame init f) fs)) as (_ & _ & Hv & _).
  destruct (view_picture _ _ Hv) as [Hpic _]. congruence.
Qed.
End UpToDate.

Section Displayed.
Context {CL : ComplexLib} {ML : MathLib}.

Lemma picture_one_hot (s : state) (i : item) :
  (i.1 < Z.to_nat HEIGHT)%nat → (i.2 < Z.to_nat WIDTH)%nat →
  one_hot (pixel_at (picture s) (Z.to_nat WIDTH) i).
Proof.
  intros Hr Hc. unfold picture. pose proof image_fits as Hfit.
  rewrite newton_pixel by (rewrite ?length_replicate; lia || done).
  pose proof (channel_lt (a s) (b s) (c s)
                (final_iterate (a s) (b s) (c s)
                   (F64.div (unit_width s) (F64.of_int WIDTH)) (left s) (top s)
                   (Z.to_nat (iteration_count s)) i)) as Hlt.
  unfold one_hot.
  destruct (channel _ _ _ _) as [|[|[|k]]]; cbn; auto. lia.
Qed.

(** X7.  At the end of every turn of the frame loop, whatever the events and
    keys of the session were, every pixel of the [WIDTH x HEIGHT] picture
    handed to the texture has exactly one of its channels 0, 1, 2 at
    [FILL_INTENSITY] and its other three bytes at 0. *)
Theorem displayed_pixels_one_hot (f : list event * keyboard)
    (fs : list (list event * keyboard)) (i : item) :
  (i.1 < Z.to_nat HEIGHT)%nat → (i.2 < Z.to_nat WIDTH)%nat →
  one_hot (pixel_at (pixels (foldl frame (frame init f) fs)) (Z.to_nat WIDTH) i).
Proof.
  intros Hr Hc.
  destruct (frames_end_state f fs) as (_ & (-> & _) & _).
  apply picture_one_hot; assumption.
Qed.

(** X8.  A frame whose last event is a key-down of [r], with no key held,
    shows the start-up picture and markers again, whatever the session did
    before: the roots, the viewport and the iteration count are back at their
    initial values and both pointer modes are off. *)
Theorem reset_shows_the_startup_picture (s : state) (es : list event) :
  allocated s →
  let s' := frame s (es ++ [SDL_KEYDOWN SDLK_r], no_keys) in
  let s0 := frame init ([], no_keys) in
  view s' = view init
  ∧ point_dragging_index s' = 0 ∧ position_dragging s' = false
  ∧ pixels s' = pixels s0
  ∧ roots0 s' = roots0 s0 ∧ roots1 s' = roots1 s0 ∧ roots2 s' = roots2 s0.
Proof.
  intros Hal. cbn zeta. unfold frame. cbn [fst snd].
  rewrite foldl_app. cbn [foldl].
  set (s1 := foldl handle_event s es).
  destruct (events_buffers es s) as (Hp1 & Hb1 & _). fold s1 in Hp1, Hb1.
  set (s2 := handle_event s1 (SDL_KEYDOWN SDLK_r)).
  assert (Hal2 : allocated s2).
  { destruct Hal as [Hp Hb]. split; [rewrite <- Hp, <- Hp1|rewrite <- Hb, <- Hb1];
      reflexivity. }
  assert (Hv : view s2 = view init) by reflexivity.
  change (handle_keys s2 no_keys) with s2.
  change (handle_keys init no_keys) with init.
  change (changed s2) with true. change (changed init) with true. cbn iota.
  destruct (render_fields s2) as (_ & _ & Hv2 & _ & Hr0 & Hr1 & Hr2).
  destruct (render_fields init) as (_ & _ & Hvi & _ & Hi0 & Hi1 & Hi2).
  destruct (render_up_to_date s2 Hal2) as (Hp2 & _).
  destruct (render_up_to_date init init_allocated) as (Hpi & _).
  destruct (view_picture init s2 Hv) as [Hpic Hm].
  destruct (view_picture s2 (render s2) Hv2) as [Hpic2 _].
  destruct (view_picture init (render init) Hvi) as [Hpici _].
  split; [rewrite Hv2; exact Hv|]. split; [reflexivity|]. split; [reflexivity|].
  split; [congruence|].
  rewrite Hr0, Hr1, Hr2, Hi0, Hi1, Hi2, !Hm. repeat split; reflexivity.
Qed.
End Displayed.

Lemma displayed_pixels_one_hot_witness :
  one_hot (pixel_at
    (pixels (foldl (frame (CL := textbook_complex) (ML := repeated_math))
               (frame (CL := textbook_complex) (ML := repeated_math) init
                  ([SDL_MOUSEWHEEL 2], no_keys))
               [([SDL_KEYDOWN SDLK_UP], shift_held)]))
    (Z.to_nat WIDTH) (700, 1000)%nat).
Proof.
  apply (displayed_pixels_one_hot (CL := textbook_complex) (ML := repeated_math));
    unfold HEIGHT, WIDTH; cbn [fst snd]; lia.
Defined.

Lemma reset_shows_the_startup_picture_witness :
  pixels (frame (CL := textbook_complex) (ML := repeated_math) init
            ([SDL_MOUSEWHEEL 2] ++ [SDL_KEYDOWN SDLK_r], no_keys))
  = pixels (frame (CL := textbook_complex) (ML := repeated_math) init
              ([], no_keys)).
Proof.
  exact (proj1 (proj2 (proj2 (proj2
           (reset_shows_the_startup_picture (CL := textbook_complex)
              (ML := repeated_math) init [SDL_MOUSEWHEEL 2] init_allocated))))).
Defined.

(** ** The outer loop and the exit of [main] *)

Section Loop.
Context {CL : ComplexLib} {ML : MathLib}.

Lemma handle_event_running (s : state) (e : event) :
  running (handle_event s e) = running s && negb (is_quit e).
Proof. event_cases e; cbn; by rewrite ?andb_true_r, ?andb_false_r. Qed.

Lemma events_running (es : list event) (s : state) :
  running (foldl handle_event s es) = running s && negb (existsb is_quit es).
Proof.
  revert s. induction es as [|e es IH]; intros s; cbn [foldl existsb].
  - by rewrite andb_true_r.
  - rewrite IH, handle_event_running, negb_orb. by rewrite andb_assoc.
Qed.

Lemma handle_keys_running (s : state) (k : keyboard) :
  running (handle_keys s k) = running s.
Proof. keys_cases; done. Qed.

Lemma frame_running (s : state) (f : list event * keyboard) :
  running (frame s f) = running s && negb (has_quit f).
Proof.
  unfold frame, has_quit.
  rewrite <- events_running.
  set (s1 := foldl handle_event s f.1).
  transitivity (running (handle_keys s1 f.2)); [|apply handle_keys_running].
  destruct (changed _); reflexivity.
Qed.

(** X9.  The outer loop ends exactly at the end of the first frame that polls
    an [SDL_QUIT]: that frame is run to its end (the events polled after the
    quit, the held keys and the rendering included), no later frame is run,
    and as long as no quit has been polled the loop does not end. *)
Theorem loop_ends_after_first_quit (pre post : list (list event * keyboard))
    (f : list event * keyboard) :
  Forall (λ g, has_quit g = false) pre → has_quit f = true →
  loop init (pre ++ f :: post) = Some (foldl frame init (pre ++ [f]))
  ∧ loop init pre = None.
Proof.
  intros Hpre Hf.
  assert (Hgen : ∀ s, running s = true →
    loop s (pre ++ f :: post) = Some (foldl frame s (pre ++ [f]))
    ∧ loop s pre = None).
  { induction Hpre as [|g pre Hg Hpre IH]; intros s Hs.
    - cbn. rewrite Hs. split; [|done].
      destruct post; cbn; by rewrite frame_running, Hs, Hf.
    - cbn [app loop foldl]. rewrite Hs. apply IH.
      by rewrite frame_running, Hs, Hg. }
  by apply Hgen.
Qed.

(** X10.  When the set-up succeeds, [main] returns 0 after destroying the
    texture, the renderer and the window and quitting the library, in that
    order, as soon as some frame polls a quit; it does not return while no
    frame does. *)
Theorem main_returns_when_quit_is_polled (env : sdl)
    (frames : list (list event * keyboard)) :
  SDL_Init env = 0 → SDL_CreateWindow env = true →
  SDL_CreateRenderer env = true → SDL_CreateTexture env = true →
  main env frames
  = if existsb has_quit frames
    then Some (0, [SDL_DestroyTexture; SDL_DestroyRenderer; SDL_DestroyWindow;
                   SDL_Quit])
    else None.
Proof.
  intros Hi Hw Hr Ht. unfold main. rewrite Hi, Hw, Hr, Ht. cbn [Z.eqb negb].
  assert (Hgen : ∀ s, running s = true →
    match loop s frames with Some _ => true | None => false end
    = existsb has_quit frames).
  { induction frames as [|g fs IH]; intros s Hs; cbn [loop existsb]; rewrite Hs.
    - done.
    - destruct (has_quit g) eqn:Hg; cbn [orb].
      + destruct fs; cbn [loop]; by rewrite frame_running, Hs, Hg.
      + apply IH. by rewrite frame_running, Hs, Hg. }
  specialize (Hgen init eq_refl).
  destruct (loop init frames), (existsb has_quit frames); done.
Qed.

(** X11.  [main] destroys exactly what it created and nothing else: the
    window when it was created, the renderer when the window and the renderer
    were, the texture when all three were; when [SDL_Init] fails it returns 1
    without a single clean-up call, otherwise [SDL_Quit] is its last call. *)
Theorem main_destroys_what_it_created (env : sdl)
    (frames : list (list event * keyboard)) (code : Z) (calls : list cleanup) :
  main env frames = Some (code, calls) →
  (SDL_Init env ≠ 0 → code = 1 ∧ calls = [])
  ∧ (SDL_Init env = 0 →
     code = 0
     ∧ last calls = Some SDL_Quit
     ∧ (SDL_DestroyWindow ∈ calls ↔ SDL_CreateWindow env = true)
     ∧ (SDL_DestroyRenderer ∈ calls ↔
        SDL_CreateWindow env = true ∧ SDL_CreateRenderer env = true)
     ∧ (SDL_DestroyTexture ∈ calls ↔
        SDL_CreateWindow env = true ∧ SDL_CreateRenderer env = true
        ∧ SDL_CreateTexture env = true)).
Proof.
  unfold main. intros Hmain. split.
  - intros Hi. apply Z.eqb_neq in Hi. rewrite Hi in Hmain. cbn in Hmain.
    by injection Hmain as <- <-.
  - intros Hi. rewrite Hi in Hmain. cbn [Z.eqb negb] in Hmain.
    destruct (SDL_CreateWindow env), (SDL_CreateRenderer env),
      (SDL_CreateTexture env); cbn [negb] in Hmain;
      try destruct (loop init frames); try discriminate Hmain;
      injection Hmain as <- <-;
      (split; [done|]); (split; [done|]);
      rewrite ?elem_of_cons, ?elem_of_nil; intuition congruence.
Qed.
End Loop.

Lemma loop_ends_after_first_quit_witness :
  loop (CL := textbook_complex) (ML := repeated_math) init
    ([([SDL_KEYDOWN SDLK_UP], no_keys)]
     ++ ([SDL_QUIT; SDL_KEYDOWN SDLK_DOWN], shift_held) :: [([], no_keys)])
  = Some (foldl (frame (CL := textbook_complex) (ML := repeated_math)) init
            ([([SDL_KEYDOWN SDLK_UP], no_keys)]
             ++ [([SDL_QUIT; SDL_KEYDOWN SDLK_DOWN], shift_held)])).
Proof.
  apply (loop_ends_after_first_quit (CL := textbook_complex) (ML := repeated_math)
           [([SDL_KEYDOWN SDLK_UP], no_keys)] [([], no_keys)]
           ([SDL_QUIT; SDL_KEYDOWN SDLK_DOWN], shift_held)).
  - repeat constructor.
  - reflexivity.
Defined.

Lemma main_returns_when_quit_is_polled_witness :
  main (CL := textbook_complex) (ML := repeated_math) (Sdl 0 true true true)
    [([SDL_WINDOWEVENT_RESIZED], no_keys); ([SDL_QUIT], no_keys)]
  = Some (0, [SDL_DestroyTexture; SDL_DestroyRenderer; SDL_DestroyWindow; SDL_Quit]).
Proof.
  exact (main_returns_when_quit_is_polled (CL := textbook_complex)
           (ML := repeated_math) (Sdl 0 true true true)
           [([SDL_WINDOWEVENT_RESIZED], no_keys); ([SDL_QUIT], no_keys)]
           eq_refl eq_refl eq_refl eq_refl).
Defined.

Lemma main_destroys_what_it_created_witness :
  last [SDL_DestroyWindow; SDL_Quit] = Some SDL_Quit
  ∧ (SDL_DestroyWindow ∈ [SDL_DestroyWindow; SDL_Quit] ↔ true = true).
Proof.
  pose proof (proj2 (main_destroys_what_it_created (CL := textbook_complex)
                (ML := repeated_math) (Sdl 0 true false true) [] 0
                [SDL_DestroyWindow; SDL_Quit] eq_refl) eq_refl)
    as (_ & Hlast & Hwin & _).
  exact (conj Hlast Hwin).
Defined.

(** ** Dragging, the iteration keys and the hit test *)

Section Interaction.
Context {CL : ComplexLib} {ML : MathLib}.

(** X12.  In every reachable state the dragged index is 0, 1, 2 or 3, so a
    pointer motion while a root is dragged always moves exactly one root: the
    one grabbed is put at the point of the plane under the pointer (narrowed
    to [float]), the other two stay where they are, and [changed] is set. *)
Theorem drag_moves_exactly_the_grabbed_root (s : state) (mx my xrel yrel : Z) :
  reachable s → point_dragging_index s ≠ 0 →
  let s' := handle_event s (SDL_MOUSEMOTION mx my xrel yrel) in
  let v := Complex
             (F32.of_double (pix_to_coords_x (F64.of_int mx) (left s) (unit_width s)))
             (F32.of_double (pix_to_coords_y (F64.of_int my) (top s) (unit_height s))) in
  changed s' = true
  ∧ (point_dragging_index s = 1 ∧ a s' = v ∧ b s' = b s ∧ c s' = c s
     ∨ point_dragging_index s = 2 ∧ a s' = a s ∧ b s' = v ∧ c s' = c s
     ∨ point_dragging_index s = 3 ∧ a s' = a s ∧ b s' = b s ∧ c s' = v).
Proof.
  intros Hs Hd. pose proof (point_dragging_index_range s Hs) as Hr.
  cbn zeta. unfold handle_event.
  assert (Hcases : point_dragging_index s = 1 ∨ point_dragging_index s = 2
                   ∨ point_dragging_index s = 3) by lia.
  destruct Hcases as [Hi|[Hi|Hi]]; rewrite Hi; cbn [Z.eqb negb]; state_simpl;
    rewrite Hi; state_simpl; auto 10.
Qed.

(** X13.  On the iteration count the Down key is a saturating decrement and
    the two keys undo one another: Down gives [max 0 (count - 1)]; Up then
    Down gives the count back unless it is [2^64 - 1]; Down then Up gives it
    back unless it is 0, where it gives 1. *)
Theorem iteration_keys_step_and_undo (s : state) :
  reachable s →
  let up s := handle_event s (SDL_KEYDOWN SDLK_UP) in
  let down s := handle_event s (SDL_KEYDOWN SDLK_DOWN) in
  iteration_count (down s) = Z.max 0 (iteration_count s - 1)
  ∧ (iteration_count s < 2 ^ 64 - 1 →
     iteration_count (down (up s)) = iteration_count s)
  ∧ (0 < iteration_count s → iteration_count (up (down s)) = iteration_count s)
  ∧ (iteration_count s = 0 → iteration_count (up (down s)) = 1).
Proof.
  intros Hs. pose proof (iteration_count_range s Hs) as Hr. cbn zeta.
  unfold handle_event. state_simpl. unfold size_t.
  destruct (iteration_count s =? 0) eqn:H0.
  - apply Z.eqb_eq in H0. rewrite H0. state_simpl. cbn. repeat split; try done; lia.
  - apply Z.eqb_neq in H0. state_simpl.
    rewrite (Z.mod_small (iteration_count s - 1)) by lia.
    split; [lia|]. split; [|split].
    + intros Hlt. rewrite (Z.mod_small (iteration_count s + 1)) by lia.
      destruct (iteration_count s + 1 =? 0) eqn:H1; [lia|]. state_simpl.
      rewrite Z.mod_small by lia. lia.
    + intros _. rewrite Z.mod_small by lia. lia.
    + lia.
Qed.
End Interaction.

Lemma drag_moves_exactly_the_grabbed_root_witness :
  changed (handle_event (ML := repeated_math)
             (left_then_right_down (CL := textbook_complex) (ML := repeated_math))
             (SDL_MOUSEMOTION 400 200 93 (-107))) = true.
Proof.
  refine (proj1 (drag_moves_exactly_the_grabbed_root (CL := textbook_complex)
            (ML := repeated_math)
            (left_then_right_down (CL := textbook_complex) (ML := repeated_math))
            400 200 93 (-107) _ _)).
  - apply left_then_right_down_reachable.
  - lazy. discriminate.
Defined.

Lemma iteration_keys_step_and_undo_witness :
  iteration_count
    (handle_event (ML := repeated_math)
       (handle_event (ML := repeated_math) init (SDL_KEYDOWN SDLK_UP))
       (SDL_KEYDOWN SDLK_DOWN))
  = iteration_count init.
Proof.
  refine (proj1 (proj2 (iteration_keys_step_and_undo (CL := textbook_complex)
            (ML := repeated_math) init reachable_init)) _).
  lazy. reflexivity.
Defined.

Lemma ltb_abs_sub_non_finite (cx p : double) :
  is_finite cx = false →
  F64.ltb (F64.abs (F64.sub cx p)) (F64.of_int 5) = false.
Proof.
  intros Hc.
  destruct cx as [s|[]| |s m e]; try discriminate Hc;
    destruct p as [s'|[]| |s' m' e']; reflexivity.
Qed.

Lemma center_non_finite (v : float) :
  is_finite v = false →
  is_finite (F64.add (F64.of_float v) (F64.of_int 5)) = false.
Proof. intros Hv. destruct v as [s|[]| |s m e]; try discriminate Hv; reflexivity. Qed.

(** X14.  The hit test does not depend on which of the two points is given
    first, and it fails whenever a coordinate of the marker is not finite: a
    marker whose position is an infinity or a NaN can never be grabbed. *)
Theorem hit_test_is_symmetric_and_needs_finite_marker (r : SDL_FRect) (x y : Z)
    (x1 y1 x2 y2 : double) :
  is_in_range x1 y1 x2 y2 = is_in_range x2 y2 x1 y1
  ∧ (is_finite (rect_x r) && is_finite (rect_y r) = false → hit r x y = false).
Proof.
  split; [apply is_in_range_pointer_first|].
  intros Hr. unfold hit, is_in_range, center_x, center_y.
  apply andb_false_iff in Hr as [Hr|Hr].
  - rewrite ltb_abs_sub_non_finite by (by apply center_non_finite). done.
  - rewrite (ltb_abs_sub_non_finite (F64.add (F64.of_float (rect_y r)) _))
      by (by apply center_non_finite).
    apply andb_false_r.
Qed.

Lemma hit_test_is_symmetric_and_needs_finite_marker_witness :
  hit (FRect S754_nan (F32.of_int 0) (F32.of_int 10) (F32.of_int 10)) 5 5 = false.
Proof.
  exact (proj2 (hit_test_is_symmetric_and_needs_finite_marker
           (FRect S754_nan (F32.of_int 0) (F32.of_int 10) (F32.of_int 10)) 5 5
           (F64.of_int 0) (F64.of_int 0) (F64.of_int 0) (F64.of_int 0)) eq_refl).
Defined.

(** ** The corner of the viewport *)

Lemma SFsub_diag_zero (prec emax : Z) (x : spec_float) :
  is_finite x = true → ∃ s, SFsub prec emax x x = S754_zero s.
Proof.
  intros Hx. destruct x as [s|s| |s m e]; try discriminate Hx; cbn.
  - destruct s; by eexists.
  - rewrite Z.sub_diag. by eexists.
Qed.

(** X15.  Pixel 0 is the corner of the viewport.  With a finite unit size,
    pixel column 0 maps to [left] and pixel row 0 to [top], bit for bit (for
    a non-zero [left], [top]); and with a finite non-zero unit size, [left]
    and [top] map back to a zero pixel coordinate. *)
Theorem pixel_0_is_the_viewport_corner (left top unit_width unit_height : double) :
  (is_finite unit_width = true → is_nonzero_finite left = true →
   pix_to_coords_x (F64.of_int 0) left unit_width = left)
  ∧ (is_finite unit_height = true → is_nonzero_finite top = true →
     pix_to_coords_y (F64.of_int 0) top unit_height = top)
  ∧ (is_nonzero_finite unit_width = true → is_finite left = true →
     SFeqb (coords_to_pix_x left left unit_width) (F64.of_int 0) = true)
  ∧ (is_nonzero_finite unit_height = true → is_finite top = true →
     SFeqb (coords_to_pix_y top top unit_height) (F64.of_int 0) = true).
Proof.
  split; [|split; [|split]].
  - intros Hu Hl. unfold pix_to_coords_x.
    destruct unit_width as [su|su| |su mu eu]; try discriminate Hu;
      destruct left as [sl|sl| |sl ml el]; try discriminate Hl; reflexivity.
  - intros Hu Ht. unfold pix_to_coords_y.
    destruct unit_height as [su|su| |su mu eu]; try discriminate Hu;
      destruct top as [st|st| |st mt et]; try discriminate Ht; reflexivity.
  - intros Hu Hl. unfold coords_to_pix_x, F64.sub.
    destruct (SFsub_diag_zero F64.prec F64.emax left Hl) as [s ->].
    destruct unit_width as [su|su| |su mu eu]; try discriminate Hu.
    reflexivity.
  - intros Hu Ht. unfold coords_to_pix_y, F64.sub.
    destruct (SFsub_diag_zero F64.prec F64.emax top Ht) as [s ->].
    destruct unit_height as [su|su| |su mu eu]; try discriminate Hu.
    reflexivity.
Qed.

Lemma pixel_0_is_the_viewport_corner_witness :
  pix_to_coords_x (F64.of_int 0) (left zoomed_twice) (unit_width zoomed_twice)
  = left zoomed_twice.
Proof.
  refine (proj1 (pixel_0_is_the_viewport_corner (left zoomed_twice)
            (top zoomed_twice) (unit_width zoomed_twice)
            (unit_height zoomed_twice)) _ _); lazy; reflexivity.
Defined.

(** ** What events and keys leave alone *)

(** X16.  Only a rendering writes the pixel buffer, the work buffer and the
    markers: no event and no held key touches them.  Held keys moreover leave
    the roots, the iteration count, both pointer modes, [running] and the
    output alone, and [render] leaves everything but the two buffers, the
    markers and [changed] alone. *)
Theorem only_render_writes_buffers_and_markers {CL : ComplexLib} {ML : MathLib}
    (s : state) (e : event) (k : keyboard) :
  (pixels (handle_event s e) = pixels s ∧ buffer (handle_event s e) = buffer s
   ∧ roots0 (handle_event s e) = roots0 s ∧ roots1 (handle_event s e) = roots1 s
   ∧ roots2 (handle_event s e) = roots2 s)
  ∧ (pixels (handle_keys s k) = pixels s ∧ buffer (handle_keys s k) = buffer s
     ∧ roots0 (handle_keys s k) = roots0 s ∧ roots1 (handle_keys s k) = roots1 s
     ∧ roots2 (handle_keys s k) = roots2 s)
  ∧ (a (handle_keys s k) = a s ∧ b (handle_keys s k) = b s
     ∧ c (handle_keys s k) = c s
     ∧ iteration_count (handle_keys s k) = iteration_count s
     ∧ point_dragging_index (handle_keys s k) = point_dragging_index s
     ∧ position_dragging (handle_keys s k) = position_dragging s
     ∧ running (handle_keys s k) = running s ∧ cout (handle_keys s k) = cout s)
  ∧ (view (render s) = view s
     ∧ point_dragging_index (render s) = point_dragging_index s
     ∧ position_dragging (render s) = position_dragging s
     ∧ running (render s) = running s ∧ cout (render s) = cout s).
Proof.
  split; [apply handle_event_buffers|]. split; [apply handle_keys_buffers|].
  split; [|repeat split; reflexivity].
  keys_cases; done.
Qed.

(** ** Exact pans *)

(** X17.  A pan by [(dx, dy)] followed by a pan by [(-dx, -dy)] gives [left]
    back, bit for bit, whenever the first pan computed [left - d] without
    rounding, and gives [top] back whenever it computed [top + e] without
    rounding ([d], [e] the two offsets; [left], [top] and the offsets
    well-formed finite doubles). *)
Theorem pan_and_back_restores_when_exact (s : state) (dx dy : Z) :
  let d := F64.div (F64.mul (F64.of_int dx) (unit_width s)) (F64.of_int WIDTH) in
  let e := F64.div (F64.mul (F64.of_int dy) (unit_height s)) (F64.of_int HEIGHT) in
  let s' := pan (- dx) (- dy) (pan dx dy s) in
  (dx ≠ 0 → is_nonzero_finite (left s) = true → is_finite d = true →
   valid_binary F64.prec F64.emax (left s) = true →
   valid_binary F64.prec F64.emax d = true →
   exact_difference (left s) d (F64.sub (left s) d) →
   left s' = left s)
  ∧ (dy ≠ 0 → is_nonzero_finite (top s) = true → is_finite e = true →
     valid_binary F64.prec F64.emax (top s) = true →
     valid_binary F64.prec F64.emax e = true →
     exact_sum (top s) e (F64.add (top s) e) →
     top s' = top s).
Proof.
  cbn zeta. split.
  - intros Hdx Hl Hd Hvl Hvd Hex. state_simpl.
    rewrite pan_left_back by done. cbn zeta.
    by apply SFadd_SFsub_exact.
  - intros Hdy Ht He Hvt Hve Hex. state_simpl.
    rewrite pan_top_back by done. cbn zeta.
    by apply SFsub_SFadd_exact.
Qed.

Lemma pan_and_back_restores_when_exact_witness :
  left (pan (- 96) (- 7) (pan 96 7 init)) = left init.
Proof.
  refine (proj1 (pan_and_back_restores_when_exact init 96 7) _ _ _ _ _ _);
    try (lazy; reflexivity || discriminate).
  exists (-60), (-5 * 2 ^ 60), (15 * 2 ^ 56). repeat split; lazy; reflexivity.
Defined.

(** ** The empty image *)

(** X18.  With a width or a height of 0, [newton] runs no work item: it only
    clears the pixel buffer, and gives the work buffer back as it was,
    whatever the iteration count. *)
Theorem newton_of_empty_image {CL : ComplexLib} (a b c : complex) (w h : nat)
    (unit left top : double) (buf : list complex) (out : list Z)
    (iterations : nat) :
  w = 0%nat ∨ h = 0%nat →
  newton a b c w h unit left top buf out iterations
  = (buf, replicate (length out) 0).
Proof.
  intros Hwh. assert (Hz : (h * w = 0)%nat) by (destruct Hwh; subst; lia).
  pose proof (newton_bounds a b c w h unit left top buf out iterations)
    as (Hl1 & Hl2 & Hb & Ho).
  destruct (newton a b c w h unit left top buf out iterations) as [vec out'].
  cbn [fst snd] in *. f_equal.
  - apply list_eq. intros k. apply Hb. lia.
  - apply list_eq. intros k.
    destruct (decide (k < length out)%nat) as [Hk|Hk].
    + rewrite Ho by lia. symmetry. by apply lookup_replicate_2.
    + rewrite !(proj2 (lookup_ge_None _ _)); rewrite ?length_replicate; [done|lia..].
Qed.

Lemma newton_of_empty_image_witness :
  newton (CL := textbook_complex)
    (complex_of_ints (-2) 1) (complex_of_ints 2 2) (complex_of_ints (-1) (-2))
    0 3 (F64.of_int 1) (F64.of_int (-2)) (F64.of_int 2)
    [complex_of_ints 7 7] [9; 9; 9; 9] 5%nat
  = ([complex_of_ints 7 7], [0; 0; 0; 0]).
Proof.
  apply (newton_of_empty_image (CL := textbook_complex)). by left.
Defined.

(** ** Conversions between [float] and [double] *)

(** What widening makes of a well-formed [float]: the same value, with a
    mantissa of 53 bits. *)
Lemma of_float_finite (s : bool) (m : positive) (e : Z) :
  bounded F32.prec F32.emax m e = true →
  let n := 53 - Z.pos (digits2_pos m) in
  0 ≤ n
  ∧ F64.of_float (S754_finite s m e)
    = S754_finite s (Pos.shiftl_nat m (Z.to_nat n)) (e - n)
  ∧ bounded F64.prec F64.emax (Pos.shiftl_nat m (Z.to_nat n)) (e - n) = true.
Proof.
  intros Hb. cbn zeta.
  pose proof Hb as Hb'. apply andb_true_iff in Hb' as [Hc He].
  unfold canonical_mantissa, fexp, emin, F32.prec, F32.emax in Hc, He.
  apply Z.eqb_eq in Hc. apply Z.leb_le in He.
  set (d := Z.pos (digits2_pos m)) in *.
  assert (Hd : 0 < d) by (unfold d; lia).
  assert (Hn : 0 ≤ 53 - d) by lia.
  assert (Hb64 : bounded F64.prec F64.emax
                   (Pos.shiftl_nat m (Z.to_nat (53 - d))) (e - (53 - d)) = true).
  { apply andb_true_iff. split.
    - unfold canonical_mantissa, fexp, emin, F64.prec, F64.emax.
      rewrite digits2_shiftl_nat, Z2Nat.id by lia. fold d.
      apply Z.eqb_eq. lia.
    - apply Z.leb_le. unfold F64.prec, F64.emax. lia. }
  split; [done|]. split; [|done].
  unfold F64.of_float, round_to.
  apply binary_round_canonical; [done|]. right. split; [lia|].
  rewrite Zpos_shiftl_nat, Z2Nat.id by lia. f_equal. f_equal. lia.
Qed.

(** X19.  A well-formed [float] that is widened to [double] and narrowed
    back is the [float] it was, bit for bit, and the [double] in between is
    well formed: the conversions between the roots (kept as [float]) and the
    viewport arithmetic (done in [double]) lose nothing in that direction. *)
Theorem float_survives_double (x : float) :
  valid_binary F32.prec F32.emax x = true →
  F32.of_double (F64.of_float x) = x
  ∧ valid_binary F64.prec F64.emax (F64.of_float x) = true.
Proof.
  intros Hv. destruct x as [s|s| |s m e]; try done.
  cbn [valid_binary] in Hv.
  destruct (of_float_finite s m e Hv) as (Hn & -> & Hb64). split; [|done].
  unfold F32.of_double, round_to.
  apply binary_round_canonical; [done|]. left. split; [lia|].
  rewrite Zpos_shiftl_nat, Z2Nat.id by lia. f_equal. f_equal. lia.
Qed.

Lemma float_survives_double_witness :
  F32.of_double (F64.of_float (rect_x (marker (complex_of_ints (-2) 1) init)))
  = rect_x (marker (complex_of_ints (-2) 1) init).
Proof.
  apply (float_survives_double (rect_x (marker (complex_of_ints (-2) 1) init))).
  lazy. reflexivity.
Defined.

(** ** The frame counter *)

(** X20.  The five-second test of the frame counter is safe across the
    wrap-around of [SDL_GetTicks]: when the clock really advanced by
    [T1 - T0 < 2^32] milliseconds since [last_time] was taken, the [FPS] line
    is printed exactly when [T1 - T0 >= 5000], even if the 32-bit tick value
    wrapped in between.  A printed line shows the frames counted since the
    last one divided by 5, and restarts the count and the interval; otherwise
    the frame is counted and [last_time] stays. *)
Theorem frame_counter_is_wrap_safe (st : fps) (T0 T1 : Z) :
  last_time st = uint32_t T0 → 0 ≤ T1 - T0 < 2 ^ 32 →
  0 ≤ frame_count st < 2 ^ 64 - 1 →
  let r := count_frame st (uint32_t T1) in
  (5000 ≤ T1 - T0 →
   r = (Fps 0 (uint32_t T1), Some ((frame_count st + 1) / 5)))
  ∧ (T1 - T0 < 5000 → r = (Fps (frame_count st + 1) (last_time st), None)).
Proof.
  intros Hlast Hel Hfc. cbn zeta. unfold count_frame.
  assert (Hd : uint32_t (uint32_t T1 - last_time st) = T1 - T0).
  { rewrite Hlast. unfold uint32_t. rewrite <- Zminus_mod.
    apply Z.mod_small. lia. }
  rewrite Hd. unfold size_t. rewrite (Z.mod_small (frame_count st + 1)) by lia.
  split; intros Ht.
  - apply Z.leb_le in Ht. by rewrite Ht.
  - apply Z.leb_gt in Ht. by rewrite Ht.
Qed.

Lemma frame_counter_is_wrap_safe_witness :
  count_frame (Fps 299 (2 ^ 32 - 1000)) 4500 = (Fps 0 4500, Some 60).
Proof.
  exact (proj1 (frame_counter_is_wrap_safe (Fps 299 (2 ^ 32 - 1000))
           (2 ^ 32 - 1000) (2 ^ 32 + 4500) eq_refl ltac:(lia) ltac:(cbn; lia))
           ltac:(lia)).
Defined.
